(** * ts-safe: the chain engine (result.ts, core.ts, shared.ts)

    A shallow embedding of the result representation, the updater
    [safeResult.update] and the chain operations of [createChain], followed
    by the laws that the specification states about them.

    Modelling conventions.
    - JavaScript values are the inductive [val].  Error objects and other
      objects carry the identity they were allocated with, so that "the same
      object" is equality of values.
    - A chain is the result it closes over: two chains are equal when they
      hold the same result.  The identity of the chain objects, a new one
      for every operation, is not modelled.
    - A promise is represented by the outcome it delivers to the handlers
      registered with [then]: fulfilled with a value, rejected with a
      reason, or never settled.  Handlers are run when they are registered;
      this keeps the order of the continuations of one chain, which is the
      only order the engine relies on.
    - [isPromiseLike] only asks for a [then] method.  An object that has
      one without being a promise is a [VThenable]: its method is described
      by the handler calls it makes and by how it ends.  The engine calls
      that method itself in two places and uses what it returns as it is.
    - User callbacks are arbitrary programs of the monad [js]: they may read
      and write the store, allocate objects, return or raise.
    - [JSON.stringify] belongs to the host; the engine is verified for every
      behaviour of it (class [Runtime]). *)

From Stdlib Require Import ZArith String DecimalString List Bool Lia.
From stdpp Require Import base gmap.
Import ListNotations.

Set Implicit Arguments.
Open Scope string_scope.

(** ** JavaScript values and completions *)

Module Js.

(** Settlement of a promise-like: [E] is the type of rejection reasons,
    [A] the type of fulfilment values. *)
Inductive promise (E A : Type) : Type :=
| Fulfilled (a : A)
| Rejected (reason : E)
| Unsettled.
Arguments Fulfilled {E A} a.
Arguments Rejected {E A} reason.
Arguments Unsettled {E A}.

(** A call of one of the two handlers a [then] method receives. *)
Inductive signal (A : Type) : Type :=
| Resolve (a : A)    (* onFulfilled(a) *)
| Reject (a : A).    (* onRejected(a) *)
Arguments Resolve {A} a.
Arguments Reject {A} a.

(** How a [then] method ends. *)
Inductive ending (A : Type) : Type :=
| ReturnsUndefined             (* it has no return statement *)
| ReturnsCall (s : signal A)   (* return onFulfilled(a), return onRejected(a) *)
| Raises (a : A).              (* throw a *)
Arguments ReturnsUndefined {A}.
Arguments ReturnsCall {A} s.
Arguments Raises {A} a.

(** [VPromise] is a promise, or any object that keeps the contract of
    one: it settles once and its [then] answers with a promise for what the
    handler gives.  [VThenable] is an object with a [then] method of its
    own: called with two handlers, the method makes the calls listed, in
    order, and ends as said; a method that returns some other value is not
    described.  [VObject] is an object without a [then] method. *)
#[warnings="-register-all"]
Inductive val : Type :=
| VUndefined
| VNull
| VBool (b : bool)
| VNum (n : Z)
| VBigInt (n : Z)
| VStr (s : string)
| VError (id : nat) (message : string)   (* an instance of Error *)
| VObject (id : nat)                     (* any other object *)
| VPromise (p : promise val val)
| VThenable (calls : list (signal val)) (finish : ending val).

(** Outcome of running a piece of code: it returns or it raises. *)
Inductive completion (A : Type) : Type :=
| Normal (a : A)
| Throw (e : val).
Arguments Normal {A} a.
Arguments Throw {A} e.

(** The promise resolution procedure: a promise resolved with [v] follows
    [v] when [v] is itself promise-like, to any depth.  An object with a
    [then] of its own is followed by calling that method with the two
    resolving functions of the promise: the first call of either settles
    it, a raise before any call rejects it, and what the method returns is
    not looked at. *)
Fixpoint settle (v : val) : promise val val :=
  match v with
  | VPromise p =>
      match p with
      | Fulfilled a => settle a
      | Rejected e => Rejected e
      | Unsettled => Unsettled
      end
  | VThenable calls finish =>
      match calls with
      | Resolve a :: _ => settle a
      | Reject e :: _ => Rejected e
      | [] =>
          match finish with
          | ReturnsCall (Resolve a) => settle a
          | ReturnsCall (Reject e) => Rejected e
          | Raises e => Rejected e
          | ReturnsUndefined => Unsettled
          end
      end
  | _ => Fulfilled v
  end.

Section Monad.
Context {St : Type}.

(** The world: the object allocator and the store user code acts on. *)
Record world : Type := World { next_id : nat; store : St }.

Definition js (A : Type) : Type := world -> completion A * world.

Definition ret {A} (a : A) : js A := fun w => (Normal a, w).

Definition throw {A} (e : val) : js A := fun w => (Throw e, w).

Definition bind {A B} (m : js A) (k : A -> js B) : js B :=
  fun w =>
    match m w with
    | (Normal a, w') => k a w'
    | (Throw e, w') => (Throw e, w')
    end.

(** [try { body } catch (e) { handler }] *)
Definition try_catch {A} (body : js A) (handler : val -> js A) : js A :=
  fun w =>
    match body w with
    | (Normal a, w') => (Normal a, w')
    | (Throw e, w') => handler e w'
    end.

(** [new Error(message)]; an absent message is the empty string. *)
Definition new_Error (message : option string) : js val :=
  fun w =>
    (Normal (VError (next_id w) (match message with Some s => s | None => "" end)),
     {| next_id := S (next_id w); store := store w |}).

(** [p.then(onFulfilled, onRejected)].  A handler yields the settlement
    of the promise it answers with; a handler that raises rejects the
    new promise.  Without [onRejected] a rejection is passed on. *)
Definition Promise_then {A R} (p : promise val A)
    (onFulfilled : A -> js (promise val R))
    (onRejected : option (val -> js (promise val R))) : js (promise val R) :=
  let run (h : js (promise val R)) : js (promise val R) :=
    try_catch h (fun e => ret (Rejected e)) in
  match p with
  | Fulfilled a => run (onFulfilled a)
  | Rejected e =>
      match onRejected with
      | Some h => run (h e)
      | None => ret (Rejected e)
      end
  | Unsettled => ret Unsettled
  end.

(** [handler(a)] for the handler a signal names. *)
Definition signal_call {H} (s : signal val) (onFulfilled onRejected : val -> js H)
  : js H :=
  match s with
  | Resolve a => onFulfilled a
  | Reject e => onRejected e
  end.

Fixpoint then_calls {H} (calls : list (signal val))
    (onFulfilled onRejected : val -> js H) : js unit :=
  match calls with
  | [] => ret tt
  | s :: rest =>
      bind (signal_call s onFulfilled onRejected)
        (fun _ => then_calls rest onFulfilled onRejected)
  end.

(** [x.then(onFulfilled, onRejected)] where [x] has a [then] of its own:
    the method is run at once, and the call evaluates to what the method
    returns, [None] for [undefined].  A handler that raises interrupts the
    method. *)
Definition thenable_then {H} (calls : list (signal val)) (finish : ending val)
    (onFulfilled onRejected : val -> js H) : js (option H) :=
  bind (then_calls calls onFulfilled onRejected) (fun _ =>
    match finish with
    | ReturnsUndefined => ret None
    | ReturnsCall s =>
        bind (signal_call s onFulfilled onRejected) (fun h => ret (Some h))
    | Raises e => throw e
    end).

(** Calling a handler that was not passed raises a TypeError. *)
Definition not_a_function {A} (name : string) : js A :=
  bind (new_Error (Some (name ++ " is not a function"))) (fun e => throw e).

End Monad.
Arguments world St : clear implicits.
Arguments js St A : clear implicits.

(** The host's serializer.  It returns a string, or nothing ([undefined],
    as for [undefined] itself), or it raises. *)
Class Runtime (St : Type) : Type :=
  { JSON_stringify : val -> js St (option string) }.

End Js.
Import Js.

Declare Scope js_scope.
Delimit Scope js_scope with js.
Notation "'let*' x ':=' m 'in' k" := (bind m (fun x => k))
  (at level 10, x name, m at level 100, k at level 200) : js_scope.
Open Scope js_scope.

(** ** shared.ts *)

Module Shared.

(** [isPromiseLike(x)]: [x] has a [then] function. *)
Definition isPromiseLike (x : val) : bool :=
  match x with
  | VPromise _ | VThenable _ _ => true
  | _ => false
  end.

End Shared.
Import Shared.

(** ** result.ts *)

Module Result.

(** [SafeResult]: one object shape with three fields. *)
Record SafeResult : Type := mkSafeResult
  { isOk : bool; error : val; value : val }.

(** [SafeResult | Promise<SafeResult>], the argument of [update] and
    the result a chain closes over.  The promise is one [update] returned,
    or a promise in the sense of [VPromise]. *)
Inductive slot : Type :=
| Now (r : SafeResult)
| Later (p : promise val SafeResult).

Section Result.
Context {St : Type} {RT : Runtime St}.

(** [x instanceof Error] *)
Definition instanceof_Error (x : val) : bool :=
  match x with
  | VError _ _ => true
  | _ => false
  end.

(** The [catch] clause binds its own [error]: the value that was raised
    inside the [try] block. *)
Definition normalizeError (error : val) : js St val :=
  try_catch
    (if instanceof_Error error then ret error
     else
       match error with
       | VStr s => new_Error (Some s)
       | _ => let* s := JSON_stringify error in new_Error s
       end)
    (fun error => ret error).

Definition ok (value : val) : SafeResult :=
  {| isOk := true; error := VUndefined; value := value |}.

Definition fail (error : val) : js St SafeResult :=
  let* e := normalizeError error in
  ret {| isOk := false; error := e; value := VUndefined |}.

(** [update] is declared to return a result or a promise of one.  Its
    second branch returns [next.then(...)] as it is ([as R]): when [next]
    has a [then] of its own, that is whatever the method returned, and
    [None] stands for [undefined].  The handlers passed there answer with
    [Promise.resolve(ok(v))] and [Promise.resolve(fail(e))], promises
    already fulfilled with a result. *)
Definition update (prev : slot) (cb : SafeResult -> js St val)
  : js St (option slot) :=
  match prev with
  | Later prev =>
      let* called :=
        Promise_then prev (fun r => let* x := cb r in ret (settle x)) None in
      let* folded :=
        Promise_then called
          (fun v => ret (Fulfilled (ok v)))
          (Some (fun e => let* r := fail e in ret (Fulfilled r))) in
      ret (Some (Later folded))
  | Now prev =>
      try_catch
        (let* next := cb prev in
         if isPromiseLike next then
           match next with
           | VThenable calls finish =>
               let* returned :=
                 thenable_then calls finish
                   (fun v => ret (Fulfilled (ok v)))
                   (fun e => let* r := fail e in ret (Fulfilled r)) in
               ret (option_map Later returned)
           | _ =>
               let* folded :=
                 Promise_then (settle next)
                   (fun v => ret (Fulfilled (ok v)))
                   (Some (fun e => let* r := fail e in ret (Fulfilled r))) in
               ret (Some (Later folded))
           end
         else ret (Some (Now (ok next))))
        (fun error => let* r := fail error in ret (Some (Now r)))
  end.

End Result.

End Result.
Import Result.

(** ** core.ts *)

Module Core.

(** The chain handle.  [createChain(result)] closes over [result]; the
    methods below are the members of the object it returns. *)
Record Safe : Type := createChain { result : slot }.

Section Core.
Context {St : Type} {RT : Runtime St}.

(** [createChain(result)] computes the member [isOk] as it builds the
    object: [result.isOk], or [result.then(...)] for a promise.  On
    [undefined] that property access raises a TypeError, and no chain is
    built. *)
Definition create (result : option slot) : js St Safe :=
  match result with
  | Some result => ret (createChain result)
  | None =>
      let* e := new_Error (Some "Cannot read properties of undefined (reading 'isOk')") in
      throw e
  end.

Definition next (self : Safe) (cb : SafeResult -> js St val) : js St Safe :=
  let* r := update (result self) cb in
  create r.

Definition unwrap (self : Safe) : js St val :=
  match result self with
  | Later result =>
      let* p :=
        Promise_then result
          (fun v => if isOk v then ret (settle (value v)) else throw (error v))
          None in
      ret (VPromise p)
  | Now result =>
      if isOk result then ret (value result) else throw (error result)
  end.

Definition map (self : Safe) (transform : val -> js St val) : js St Safe :=
  next self (fun prev =>
    if isOk prev then transform (value prev)
    else throw (error prev)).

Definition flatMap (self : Safe) (transform : val -> js St Safe) : js St Safe :=
  next self (fun prev =>
    if isOk prev then
      let* inner := transform (value prev) in
      unwrap inner
    else throw (error prev)).

(** [v.then(() => prev.value)] is called on what [effectFn] returned and
    its value is returned: a promise when [v] is one, and what the method
    hands back when [v] has a [then] of its own, which is given one handler
    only. *)
Definition effect (self : Safe) (effectFn : val -> js St val) : js St Safe :=
  next self (fun prev =>
    if negb (isOk prev) then throw (error prev)
    else
      let* v := effectFn (value prev) in
      if isPromiseLike v then
        match v with
        | VThenable calls finish =>
            let* returned :=
              thenable_then calls finish
                (fun _ => ret (value prev))
                (fun _ => not_a_function "onRejected") in
            ret (default VUndefined returned)
        | _ =>
            let* p :=
              Promise_then (settle v) (fun _ => ret (settle (value prev))) None in
            ret (VPromise p)
        end
      else ret (value prev)).

Definition ifOk (self : Safe) (effectFn : val -> js St val) : js St Safe :=
  next self (fun prev =>
    if negb (isOk prev) then throw (error prev)
    else
      let* v := effectFn (value prev) in
      if isPromiseLike v then
        match v with
        | VThenable calls finish =>
            let* returned :=
              thenable_then calls finish
                (fun _ => ret (value prev))
                (fun _ => not_a_function "onRejected") in
            ret (default VUndefined returned)
        | _ =>
            let* p :=
              Promise_then (settle v) (fun _ => ret (settle (value prev))) None in
            ret (VPromise p)
        end
      else ret (value prev)).

(** The consumer receives [{ ...prev }], a fresh object with the fields
    of [prev]; see [Snapshot] below for the object-level account. *)
Definition watch (self : Safe) (consumer : SafeResult -> js St val) : js St Safe :=
  next self (fun prev =>
    let* _ :=
      try_catch
        (let* _ := consumer {| isOk := isOk prev; error := error prev; value := value prev |} in
         ret tt)
        (fun _ => ret tt) in
    if isOk prev then ret (value prev)
    else throw (error prev)).

Definition catch (self : Safe) (handler : val -> js St val) : js St Safe :=
  next self (fun result =>
    if negb (isOk result) then handler (error result)
    else ret (value result)).

Definition ifFail (self : Safe) (handler : val -> js St val) : js St Safe :=
  next self (fun result =>
    if negb (isOk result) then handler (error result)
    else ret (value result)).

Definition orElse (self : Safe) (fallback : val) : js St val :=
  let* chain :=
    next self (fun result =>
      if negb (isOk result) then ret fallback
      else ret (value result)) in
  unwrap chain.

(** The [isOk] member, computed when the chain is created. *)
Definition isOk (self : Safe) : js St val :=
  match result self with
  | Later result =>
      let* p :=
        Promise_then result
          (fun v => ret (Fulfilled (VBool (Result.isOk v))))
          None in
      ret (VPromise p)
  | Now result => ret (VBool (Result.isOk result))
  end.

Definition safeValue (value : val) : js St Safe :=
  let chain := createChain (Now (ok VUndefined)) in
  try_catch
    (map chain (fun _ => ret value))
    (fun e => map chain (fun _ => throw e)).

Definition safeExec (fn : js St val) : js St Safe :=
  let chain := createChain (Now (ok VUndefined)) in
  try_catch
    (map chain (fun _ => fn))
    (fun e => map chain (fun _ => throw e)).

Definition safeEmpty : Safe :=
  createChain (Now (ok VUndefined)).

End Core.

End Core.

(** ** The object-level reading of [watch]

    [watch] hands its consumer [{ ...prev }].  To say what a consumer that
    assigns to the fields of its argument can and cannot change, result
    objects live in a heap here and the consumer is given an address. *)

Module Snapshot.

Definition loc : Type := nat.

(** A consumer as seen by the object it receives: [assign] is the content
    it leaves in that object (any assignments to [isOk], [error], [value]),
    [body] what it does besides. *)
Record consumer (St : Type) : Type := Consumer
  { assign : SafeResult -> SafeResult;
    body : SafeResult -> js St val }.
Arguments assign {St} c r.
Arguments body {St} c r.

Section Snapshot.
Context {St : Type}.

(** [{ ...prev }]: a new object with the own fields of [prev]. *)
Definition spread (prev : loc) (heap : gmap loc SafeResult)
  : option (loc * gmap loc SafeResult) :=
  match heap !! prev with
  | Some r => let copy := fresh (dom heap) in Some (copy, <[copy := r]> heap)
  | None => None
  end.

(** [consumer(o)] for the object at address [o]. *)
Definition call (c : consumer St) (o : loc) (heap : gmap loc SafeResult)
  : option (js St val * gmap loc SafeResult) :=
  match heap !! o with
  | Some r => Some (body c r, <[o := assign c r]> heap)
  | None => None
  end.

(** The callback [watch] passes to [next], run on the object [prev]. *)
Definition watch_callback (c : consumer St) (prev : loc)
    (heap : gmap loc SafeResult) (w : world St)
  : option (completion val * gmap loc SafeResult * world St) :=
  match spread prev heap with
  | Some (copy, heap1) =>
      match call c copy heap1 with
      | Some (run, heap2) =>
          let '(_, w1) := try_catch (let* _ := run in ret tt) (fun _ => ret tt) w in
          match heap2 !! prev with
          | Some r =>
              Some (if isOk r then Normal (value r) else Throw (error r), heap2, w1)
          | None => None
          end
      | None => None
      end
  | None => None
  end.

End Snapshot.

End Snapshot.

(** ** The specification's reading of the updater (section 4.2)

    The results are written out as the records the rules name: a success
    wrapping a value, a failure holding the normalized form of what was
    raised or of the rejection reason. *)

Module Spec.

Section Spec.
Context {St : Type} {RT : Runtime St}.

(** Run a callback and keep its raw outcome. *)
Definition outcome (m : js St val) : js St (completion val) :=
  fun w => let '(o, w') := m w in (Normal o, w').

Definition failure (e : val) : js St SafeResult :=
  let* e' := normalizeError e in
  ret {| isOk := false; error := e'; value := VUndefined |}.

(** Rule 3, pending return value: the result is pending and later
    resolved. *)
Definition resolved (p : promise val val) : js St slot :=
  match p with
  | Fulfilled v =>
      ret (Later (Fulfilled {| isOk := true; error := VUndefined; value := v |}))
  | Rejected e => let* r := failure e in ret (Later (Fulfilled r))
  | Unsettled => ret (Later Unsettled)
  end.

(** Rule 3: folding a callback's raw outcome. *)
Definition fold (o : completion val) : js St slot :=
  match o with
  | Throw e => let* r := failure e in ret (Now r)
  | Normal x =>
      if isPromiseLike x then resolved (settle x)
      else ret (Now {| isOk := true; error := VUndefined; value := x |})
  end.

(** A result seen through a pending handle. *)
Definition pending (s : slot) : slot :=
  match s with
  | Now r => Later (Fulfilled r)
  | Later p => Later p
  end.

(** Rules 1 and 2.  A pending input that never resolves leaves the
    operation pending for ever.  The rules do not speak of a pending input
    that rejects: it is taken here as a raise that happened before the
    callback could be applied. *)
Definition update (prev : slot) (cb : SafeResult -> js St val) : js St slot :=
  match prev with
  | Now r => let* o := outcome (cb r) in fold o
  | Later (Fulfilled r) =>
      let* o := outcome (cb r) in
      let* s := fold o in
      ret (pending s)
  | Later (Rejected reason) => let* r := failure reason in ret (Later (Fulfilled r))
  | Later Unsettled => ret prev
  end.

End Spec.

End Spec.

(** ** Regular chains

    A callback is regular when what it hands back is an ordinary value or a
    promise, not an object with a [then] of its own.  Chains built with
    regular callbacks are [well_formed] ([operations_keep_well_formed]
    below).  Other callbacks can build a success that holds a promise, and
    can make an operation raise. *)

Definition is_promise (x : val) : bool :=
  match x with
  | VPromise _ => true
  | _ => false
  end.

Definition regular (x : val) : bool :=
  is_promise x || negb (isPromiseLike x).

Definition is_undefined (x : val) : bool :=
  match x with
  | VUndefined => true
  | _ => false
  end.

(** The two shapes [ok] and [fail] build: exactly one side is populated. *)
Definition one_sided (r : SafeResult) : bool :=
  if Result.isOk r then is_undefined (error r) else is_undefined (value r).

(** One of the two shapes, and the success does not hold a promise-like
    value. *)
Definition shaped (r : SafeResult) : bool :=
  if Result.isOk r then is_undefined (error r) && negb (isPromiseLike (value r))
  else is_undefined (value r).

(** The result is shaped, and the promise inside the chain does not
    reject. *)
Definition well_formed (s : slot) : bool :=
  match s with
  | Now r => shaped r
  | Later (Fulfilled r) => shaped r
  | Later (Rejected _) => false
  | Later Unsettled => true
  end.

(** What [update] returns when it returns a result, whatever the callback
    ([update_returns] below): one of the two shapes, in a promise that does
    not reject. *)
Definition built (s : slot) : bool :=
  match s with
  | Now r => one_sided r
  | Later (Fulfilled r) => one_sided r
  | Later (Rejected _) => false
  | Later Unsettled => true
  end.

Definition is_pending (s : slot) : bool :=
  match s with
  | Later _ => true
  | Now _ => false
  end.

(** The result a chain holds now or will hold once it resolves. *)
Definition eventual (s : slot) : option SafeResult :=
  match s with
  | Now r => Some r
  | Later (Fulfilled r) => Some r
  | Later _ => None
  end.

(** The slot that holds [r] with the timing of [s]. *)
Definition holding (s : slot) (r : SafeResult) : slot :=
  if is_pending s then Later (Fulfilled r) else Now r.


(** The failure carries an instance of [Error], as [SafeResult] declares. *)
Definition structured (r : SafeResult) : bool :=
  Result.isOk r || instanceof_Error (error r).

(** ** Sequences of chain operations *)

Inductive step (St : Type) : Type :=
| Map (transform : val -> js St val)
| FlatMap (transform : val -> js St Core.Safe)
| Effect (effectFn : val -> js St val)
| IfOk (effectFn : val -> js St val)
| Watch (consumer : SafeResult -> js St val)
| Catch (handler : val -> js St val)
| IfFail (handler : val -> js St val).

Section Sequences.
Context {St : Type} {RT : Runtime St}.

Definition apply (s : step St) (chain : Core.Safe) : js St Core.Safe :=
  match s with
  | Map f => Core.map chain f
  | FlatMap f => Core.flatMap chain f
  | Effect f => Core.effect chain f
  | IfOk f => Core.ifOk chain f
  | Watch c => Core.watch chain c
  | Catch h => Core.catch chain h
  | IfFail h => Core.ifFail chain h
  end.

(** The chains produced, in order, by applying [steps] one after the other
    starting from [chain]. *)
Fixpoint run (steps : list (step St)) (chain : Core.Safe) : js St (list Core.Safe) :=
  match steps with
  | [] => ret []
  | s :: rest =>
      let* c := apply s chain in
      let* cs := run rest c in
      ret (c :: cs)
  end.

(** The callbacks of a step are regular, and the chains a [flatMap]
    transform returns are well formed. *)
Definition regular_step (s : step St) : Prop :=
  match s with
  | Map f | Effect f | IfOk f | Catch f | IfFail f =>
      forall x w, match f x w with
                  | (Normal y, _) => regular y = true
                  | (Throw _, _) => True
                  end
  | FlatMap f =>
      forall x w, match f x w with
                  | (Normal c, _) => well_formed (Core.result c) = true
                  | (Throw _, _) => True
                  end
  | Watch _ => True
  end.

End Sequences.

(** A chain that answers [isOk] and [unwrap] only through promises. *)
Definition answers_later {St : Type} (c : Core.Safe) : Prop :=
  is_pending (Core.result c) = true
  /\ (forall w : world St, exists p, Core.isOk c w = (Normal (VPromise p), w))
  /\ (forall w : world St, exists p, Core.unwrap c w = (Normal (VPromise p), w)).

(** ** A host for the examples

    [example_host] answers as [JSON.stringify] does on the values the
    examples below serialize: a BigInt makes it raise a [TypeError]; the
    object [hostile] raises from its [toJSON] method; [undefined] has no
    serialization; [null] and the booleans serialize to their names;
    objects without enumerable own properties (errors and promises among
    them) and objects with methods only to a pair of braces.  Integers are printed in decimal and strings
    between quotes, which is right for small integers and for strings
    without characters to escape; no example serializes one. *)

Definition hostile : val := VObject 0.   (* { toJSON() { throw 'boom' } } *)

(** Two objects with a [then] of their own. *)
Definition inert : val :=                (* { then() {} } *)
  VThenable [] ReturnsUndefined.

Definition handing (x : val) : val :=    (* { then(f) { return f(x) } } *)
  VThenable [] (ReturnsCall (Resolve x)).

(** The message of the TypeError raised by reading [isOk] on [undefined]. *)
Definition no_result : string :=
  "Cannot read properties of undefined (reading 'isOk')".

Definition example_stringify {St : Type} (x : val) : js St (option string) :=
  match x with
  | VBigInt _ =>
      let* e := new_Error (Some "Do not know how to serialize a BigInt") in
      throw e
  | VObject 0 => throw (VStr "boom")
  | VUndefined => ret None
  | VNull => ret (Some "null")
  | VBool true => ret (Some "true")
  | VBool false => ret (Some "false")
  | VNum n => ret (Some (NilZero.string_of_int (Z.to_int n)))
  | VStr s => ret (Some (String (Ascii.ascii_of_nat 34) (s ++ String (Ascii.ascii_of_nat 34) "")))
  | _ => ret (Some "{}")
  end.

Definition example_host (St : Type) : Runtime St :=
  {| JSON_stringify := example_stringify |}.

(** In the examples the store is the log of the calls user code received. *)
Definition logged (tag : string) (answer : val -> js (list (string * val)) val)
  : val -> js (list (string * val)) val :=
  fun x w => answer x {| next_id := next_id w; store := (store w ++ [(tag, x)])%list |}.

(** A consumer logs the value or the error of the snapshot it is given. *)
Definition logged_consumer (tag : string) (answer : js (list (string * val)) val)
  : SafeResult -> js (list (string * val)) val :=
  fun r => logged tag (fun _ => answer) (if Result.isOk r then value r else error r).

(** [x => x * k] and [x => x + k] on numbers. *)
Definition times (k : Z) (x : val) : js (list (string * val)) val :=
  match x with
  | VNum n => ret (VNum (n * k))
  | _ => ret VUndefined
  end.

Definition plus (k : Z) (x : val) : js (list (string * val)) val :=
  match x with
  | VNum n => ret (VNum (n + k))
  | _ => ret VUndefined
  end.

Definition w0 : world (list (string * val)) := {| next_id := 1; store := [] |}.

(** The eventual outcome of [unwrap]: what it returns or raises for an
    immediate chain, what its promise settles to for a pending one. *)
Definition observe (s : slot) : promise val val :=
  match eventual s with
  | Some r => if Result.isOk r then settle (value r) else Rejected (error r)
  | None =>
      match s with
      | Later (Rejected e) => Rejected e
      | _ => Unsettled
      end
  end.

(** ** index.ts

    [safe(init)] dispatches on its argument.  Functions are not among the
    values of [val]: an argument is either a function, called without
    arguments, or a value; calling [safe()] passes [undefined]. *)

Module Index.

Inductive init (St : Type) : Type :=
| Fn (fn : js St val)
| Val (v : val).
Arguments Fn {St} fn.
Arguments Val {St} v.

Section Index.
Context {St : Type} {RT : Runtime St}.

Definition safe (init : init St) : js St Core.Safe :=
  match init with
  | Val VUndefined => ret Core.safeEmpty
  | Fn fn => Core.safeExec fn
  | Val v => Core.safeValue v
  end.

End Index.

End Index.

(** ** util: observers *)

Module Observe.

Section Observe.
Context {St : Type}.

(** The arrow functions have no [return]: they answer [undefined] when the
    consumer returns, and raise what it raises. *)
Definition watchError (consumer : val -> js St val) : SafeResult -> js St val :=
  fun result =>
    if negb (Result.isOk result) then
      let* _ := consumer (error result) in ret VUndefined
    else ret VUndefined.

Definition watchOk (consumer : val -> js St val) : SafeResult -> js St val :=
  fun result =>
    if Result.isOk result then
      let* _ := consumer (value result) in ret VUndefined
    else ret VUndefined.

End Observe.

End Observe.

(** ** util: validators *)

Module Validate.



Section Validate.
Context {St : Type}.




End Validate.

End Validate.

(** ** pipe.ts *)

Module Pipe.

Section Pipe.
Context {St : Type} {RT : Runtime St}.

(** [transformers.reduce((chain, transformer) => chain.map(transformer), chain)] *)
Fixpoint reduce (transformers : list (val -> js St val)) (chain : Core.Safe)
  : js St Core.Safe :=
  match transformers with
  | [] => ret chain
  | transformer :: rest =>
      let* c := Core.map chain transformer in
      reduce rest c
  end.

Definition safePipe (transformers : list (val -> js St val)) : val -> js St Core.Safe :=
  fun input =>
    let* initialChain := Core.safeValue input in
    reduce transformers initialChain.

End Pipe.

End Pipe.

(** ** util/retry.ts

    The function [retry] returns is [async]: it answers with a promise,
    here the settlement of that promise.  [await x] continues with what [x]
    settles to, raises its rejection reason, and never continues when [x]
    never settles.  Waiting on a timer is the only thing the code does
    with time; the host says what the passage of that time does to the
    world ([elapse]).  [maxTries] and the durations are whole numbers. *)

Module Retry.

Class Clock (St : Type) : Type :=
  { elapse : Z -> world St -> world St }.

Record options : Type := Options
  { maxTries : option Z; delay : option Z; backoff : option bool }.

(** [options?.field ?? standard] *)
Definition setting {A : Type} (o : option options) (field : options -> option A)
    (standard : A) : A :=
  default standard (o ≫= field).

(** [useBackoff ? delay * Math.pow(2, i) : delay] *)
Definition waitTime (o : option options) (i : Z) : Z :=
  if setting o backoff false then (setting o delay 1000%Z * 2 ^ i)%Z
  else setting o delay 1000%Z.

Section Retry.
Context {St : Type} {CK : Clock St}.

(** The rounds of the loop from index [i] on; [rounds] is the number of
    rounds left, [lastError] the variable of that name. *)
Fixpoint loop (fn : val -> js St val) (o : option options) (arg : val)
    (rounds : nat) (i : Z) (lastError : val) (w : world St)
  : promise val val * world St :=
  match rounds with
  | O => (Rejected lastError, w)
  | S rest =>
      let caught (error : val) (w1 : world St) :=
        loop fn o arg rest (i + 1)%Z error
          (if (i <? setting o maxTries 3%Z - 1)%Z then elapse (waitTime o i) w1 else w1) in
      match fn arg w with
      | (Normal x, w1) =>
          match settle x with
          | Fulfilled v => (Fulfilled v, w1)
          | Rejected error => caught error w1
          | Unsettled => (Unsettled, w1)
          end
      | (Throw error, w1) => caught error w1
      end
  end.

Definition retry (fn : val -> js St val) (o : option options) : val -> js St val :=
  fun arg w =>
    let '(p, w') := loop fn o arg (Z.to_nat (setting o maxTries 3%Z)) 0%Z VUndefined w in
    (Normal (VPromise p), w').

End Retry.

End Retry.

(** In the examples a wait of [ms] milliseconds is logged as such. *)
Definition example_clock : Retry.Clock (list (string * val)) :=
  {| Retry.elapse := fun ms w =>
       {| next_id := next_id w; store := (store w ++ [("wait", VNum ms)])%list |} |}.

(** * Laws *)

Ltac js_unfold :=
  unfold Core.next, Core.create, Promise_then, Spec.outcome in *;
  unfold try_catch, bind, ret, throw in *;
  cbv zeta in *.

Ltac js_step :=
  match goal with
  | |- context [match ?m ?w with pair _ _ => _ end] =>
      let o := fresh "o" in
      let w' := fresh "w" in
      let E := fresh "E" in
      destruct (m w) as [o w'] eqn:E; try destruct o
  end.

(** ** Promise resolution *)

Lemma settle_plain (x : val) :
  isPromiseLike x = false -> settle x = Fulfilled x.
Proof. destruct x; simpl; intros H; try reflexivity; discriminate. Qed.

Fixpoint settle_fulfilled_plain (x : val) :
  forall a, settle x = Fulfilled a -> isPromiseLike a = false.
Proof.
  destruct x as [ | | b | n | n | s | i m | i | p | calls finish]; simpl; intros a H;
    try (injection H as <-; reflexivity).
  - destruct p as [v | e | ]; try discriminate.
    exact (settle_fulfilled_plain v a H).
  - destruct calls as [ | [v | e] rest].
    + destruct finish as [ | [v | e] | e]; try discriminate.
      exact (settle_fulfilled_plain v a H).
    + exact (settle_fulfilled_plain v a H).
    + discriminate.
Qed.

Lemma settle_idempotent (x a : val) :
  settle x = Fulfilled a -> settle a = Fulfilled a.
Proof. intros H. apply settle_plain, (settle_fulfilled_plain x), H. Qed.

Lemma regular_plain (x : val) : isPromiseLike x = false -> regular x = true.
Proof. intros H. unfold regular. rewrite H. apply orb_true_r. Qed.

(** ** Normalization *)

Section Normalization.
Context {St : Type} {RT : Runtime St}.

Lemma normalizeError_returns (e : val) (w : world St) :
  exists e' w', normalizeError e w = (Normal e', w').
Proof.
  unfold normalizeError, try_catch.
  destruct (instanceof_Error e).
  - simpl. eauto.
  - destruct e; simpl; unfold bind; try js_step; simpl; eauto.
Qed.

Lemma normalizeError_Error (e : val) (w : world St) :
  instanceof_Error e = true -> normalizeError e w = (Normal e, w).
Proof. intros H. unfold normalizeError, try_catch. rewrite H. reflexivity. Qed.

Lemma fail_returns (e : val) (w : world St) :
  exists e' w',
    normalizeError e w = (Normal e', w') /\
    fail e w = (Normal {| isOk := false; error := e'; value := VUndefined |}, w').
Proof.
  destruct (normalizeError_returns e w) as (e' & w' & H).
  exists e', w'. split; [exact H | ].
  unfold fail, bind. rewrite H. reflexivity.
Qed.

Lemma fail_Error (e : val) (w : world St) :
  instanceof_Error e = true ->
  fail e w = (Normal {| isOk := false; error := e; value := VUndefined |}, w).
Proof.
  intros H. unfold fail, bind. rewrite (normalizeError_Error _ _ H). reflexivity.
Qed.

Lemma fail_shaped (e : val) (w : world St) r w' :
  fail e w = (Normal r, w') -> shaped r = true /\ Result.isOk r = false.
Proof.
  destruct (fail_returns e w) as (e' & w1 & _ & H). rewrite H.
  intros [= <- <-]. split; reflexivity.
Qed.

Lemma fail_never_raises (e x : val) (w w' : world St) :
  fail e w <> (Throw x, w').
Proof.
  destruct (fail_returns e w) as (e' & w1 & _ & H). rewrite H. discriminate.
Qed.

End Normalization.

Section NormalizationLaw.
Context {St : Type} {RT : Runtime St}.

(** C4 (as amended).  Error normalization never raises and is a function
    of its input and of the host: an instance of Error is returned as it
    is, the same object, and nothing is allocated; a string becomes a new
    Error whose message is that string; any other value becomes a new
    Error whose message is its serialization; and when the serializer
    raises, the result is the value the serializer raised, not the value
    that was being normalized. *)
Theorem normalizeError_coerces (e : val) (w : world St) :
  (exists e' w', normalizeError e w = (Normal e', w'))
  /\ normalizeError e w =
       if instanceof_Error e then (Normal e, w)
       else
         match e with
         | VStr s => new_Error (Some s) w
         | _ =>
             match JSON_stringify e w with
             | (Normal s, w') => new_Error s w'
             | (Throw raised, w') => (Normal raised, w')
             end
         end.
Proof.
  split; [apply normalizeError_returns | ].
  unfold normalizeError, try_catch.
  destruct (instanceof_Error e) eqn:HE; [reflexivity | ].
  destruct e; try discriminate; simpl; unfold bind;
    try (js_step; reflexivity); reflexivity.
Qed.

End NormalizationLaw.

Section NormalizationExamples.
#[local] Existing Instance example_host.

Example normalizeError_of_string :
  normalizeError (VStr "str-error") w0
  = (Normal (VError 1 "str-error"), {| next_id := 2; store := [] |}).
Proof. reflexivity. Qed.

Example normalizeError_of_undefined :
  normalizeError VUndefined w0
  = (Normal (VError 1 ""), {| next_id := 2; store := [] |}).
Proof. reflexivity. Qed.

(** C4, counterexample.  [JSON.stringify(1n)] raises a TypeError; the
    claim has [normalizeError(1n)] fall back to [1n], the code returns the
    TypeError. *)
Lemma normalizeError_fallback_counterexample :
  JSON_stringify (VBigInt 1) w0
  = (Throw (VError 1 "Do not know how to serialize a BigInt"),
     {| next_id := 2; store := [] |})
  /\ normalizeError (VBigInt 1) w0
     = (Normal (VError 1 "Do not know how to serialize a BigInt"),
        {| next_id := 2; store := [] |})
  /\ fst (normalizeError (VBigInt 1) w0) <> Normal (VBigInt 1).
Proof. repeat split. discriminate. Qed.

End NormalizationExamples.

(** ** The updater *)

Ltac fail_cases :=
  repeat match goal with
    | |- context [fail ?e ?w] =>
        let e' := fresh "e'" in
        let w' := fresh "w'" in
        destruct (fail_returns e w) as (e' & w' & _ & ->)
    end.

Ltac normalize_cases :=
  repeat match goal with
    | |- context [normalizeError ?e ?w] =>
        let e' := fresh "e'" in
        let w' := fresh "w'" in
        destruct (normalizeError_returns e w) as (e' & w' & ->)
    end.

Ltac spec_unfold :=
  unfold Spec.update, Spec.fold, Spec.resolved, Spec.pending, Spec.failure,
    Spec.outcome, fail in *;
  js_unfold.

Section Updater.
Context {St : Type} {RT : Runtime St}.

Lemma fold_then (p : promise val val) (w : world St) :
  Promise_then p
    (fun v => ret (Fulfilled (ok v)))
    (Some (fun e => let* r := fail e in ret (Fulfilled r))) w
  = match p with
    | Fulfilled v => (Normal (Fulfilled (ok v)), w)
    | Rejected e => (let* r := fail e in ret (Fulfilled r)) w
    | Unsettled => (Normal Unsettled, w)
    end.
Proof.
  destruct p as [v | e | ]; try reflexivity.
  js_unfold. destruct (fail_returns e w) as (e' & w' & _ & ->). reflexivity.
Qed.

(** With a pending input the callback's outcome is adopted by the promise
    [prev.then(cb)] returns, whatever it is. *)
Lemma update_pending_spec (p : promise val SafeResult)
    (cb : SafeResult -> js St val) (w : world St) :
  Result.update (Later p) cb w
  = (let* s := Spec.update (Later p) cb in ret (Some s)) w.
Proof.
  destruct p as [r | reason | ]; unfold Result.update; spec_unfold.
  - destruct (cb r w) as [[x | e] w1].
    + destruct (isPromiseLike x) eqn:Hx.
      * destruct (settle x) as [v | e | ]; normalize_cases; reflexivity.
      * rewrite (settle_plain _ Hx). reflexivity.
    + normalize_cases. reflexivity.
  - normalize_cases. reflexivity.
  - reflexivity.
Qed.

(** With an immediate input the updater calls [then] on what the callback
    returned: it is a promise's [then] when the callback is regular. *)
Lemma update_immediate_spec (r : SafeResult)
    (cb : SafeResult -> js St val) (w : world St) :
  (forall x w1, cb r w = (Normal x, w1) -> regular x = true) ->
  Result.update (Now r) cb w
  = (let* s := Spec.update (Now r) cb in ret (Some s)) w.
Proof.
  intros Hreg. unfold Result.update; spec_unfold.
  destruct (cb r w) as [[x | e] w1].
  - specialize (Hreg x w1 eq_refl).
    destruct x as [ | | b | n | n | s | i m | i | p | calls finish];
      try discriminate Hreg; try reflexivity.
    generalize (settle (VPromise p)). intros [v | e | ]; cbn [isPromiseLike];
      normalize_cases; reflexivity.
  - normalize_cases. reflexivity.
Qed.

Lemma update_spec (prev : slot) (cb : SafeResult -> js St val) (w : world St) :
  (forall r x w1, prev = Now r -> cb r w = (Normal x, w1) -> regular x = true) ->
  Result.update prev cb w
  = (let* s := Spec.update prev cb in ret (Some s)) w.
Proof.
  intros Hreg. destruct prev as [r | p].
  - apply update_immediate_spec. intros x w1. exact (Hreg r x w1 eq_refl).
  - apply update_pending_spec.
Qed.

(** The specification's updater never raises; its result is well formed,
    and pending when the input is. *)
Lemma spec_update_returns (prev : slot) (cb : SafeResult -> js St val)
    (w : world St) :
  exists s w',
    Spec.update prev cb w = (Normal s, w')
    /\ well_formed s = true
    /\ (is_pending prev = true -> is_pending s = true).
Proof.
  destruct prev as [r | [r | reason | ]]; spec_unfold.
  - destruct (cb r w) as [[x | e] w1].
    + destruct (isPromiseLike x) eqn:Hx.
      * destruct (settle x) as [v | e | ] eqn:Hs; normalize_cases;
          eexists _, _; (split; [reflexivity | split; [ | discriminate]]);
          simpl; try reflexivity.
        unfold shaped; simpl. now rewrite (settle_fulfilled_plain x Hs).
      * eexists _, _. split; [reflexivity | split; [ | discriminate]].
        unfold well_formed, shaped; simpl. now rewrite Hx.
    + normalize_cases. eexists _, _.
      split; [reflexivity | split; [reflexivity | discriminate]].
  - destruct (cb r w) as [[x | e] w1].
    + destruct (isPromiseLike x) eqn:Hx.
      * destruct (settle x) as [v | e | ] eqn:Hs; normalize_cases;
          eexists _, _; (split; [reflexivity | split; [ | reflexivity]]);
          simpl; try reflexivity.
        unfold shaped; simpl. now rewrite (settle_fulfilled_plain x Hs).
      * eexists _, _. split; [reflexivity | split; [ | reflexivity]].
        unfold well_formed, shaped; simpl. now rewrite Hx.
    + normalize_cases. eexists _, _. split; [reflexivity | split; reflexivity].
  - normalize_cases. eexists _, _. split; [reflexivity | split; reflexivity].
  - eexists _, _. split; [reflexivity | split; reflexivity].
Qed.

(** C2 (as amended).  [update] folds the callback's raw outcome as
    section 4.2 says, provided that, with an immediate input, a pending
    value the callback returns is a promise.  With an immediate input the
    callback runs at once: an ordinary return value gives the immediate
    success whose value it is, a raise the immediate failure holding the
    normalized form of what was raised, and a promise a pending result
    that resolves to the success holding what the promise resolves to, or
    to the failure holding its normalized rejection reason.  With a
    pending input the whole operation is pending and the callback is
    applied to the resolved result, its outcome folded in the same way,
    whatever promise-like it returns; a pending input that rejects
    resolves to the failure holding the normalized reason, and the
    callback is not applied.  [update] does not raise. *)
Theorem update_folds (prev : slot) (cb : SafeResult -> js St val) (w : world St) :
  (forall r x w1, prev = Now r -> cb r w = (Normal x, w1) -> regular x = true) ->
  exists s w',
    Spec.update prev cb w = (Normal s, w')
    /\ Result.update prev cb w = (Normal (Some s), w').
Proof.
  intros Hreg. rewrite (@update_spec prev cb w Hreg). unfold bind, ret.
  destruct (spec_update_returns prev cb w) as (s & w' & -> & _).
  exists s, w'. split; reflexivity.
Qed.

(** The handlers [update] passes to a [then] never raise, so a [then]
    method given them runs to its end. *)
Lemma then_calls_fold (calls : list (signal val)) (w : world St) :
  exists w',
    then_calls (H := promise val SafeResult) calls
      (fun v => ret (Fulfilled (ok v)))
      (fun e => let* r := fail e in ret (Fulfilled r)) w
    = (Normal tt, w').
Proof.
  revert w. induction calls as [ | [v | e] rest IH]; intros w; simpl.
  - eexists. reflexivity.
  - unfold bind, ret. apply IH.
  - unfold bind, ret. fail_cases. apply IH.
Qed.

(** Whatever the callback does, [update] does not raise, and what it
    returns, when it is not [undefined], has one of the two shapes of [ok]
    and [fail] inside a promise that does not reject. *)
Lemma update_returns (prev : slot) (cb : SafeResult -> js St val) (w : world St) :
  exists o w',
    Result.update prev cb w = (Normal o, w')
    /\ (forall s, o = Some s -> built s = true)
    /\ (is_pending prev = true -> exists p, o = Some (Later p)).
Proof.
  destruct prev as [r | p].
  - unfold Result.update, try_catch, bind.
    destruct (cb r w) as [[x | e] w1].
    + destruct x as [ | | b | n | n | s | i m | i | p | calls finish];
        try (eexists _, _; split; [reflexivity | split; [ | discriminate]];
             intros s0 [= <-]; reflexivity).
      * (* a promise *)
        cbn [isPromiseLike]. cbv beta iota. rewrite fold_then.
        destruct (settle (VPromise p)) as [v | e | ]; unfold bind, ret; fail_cases;
          eexists _, _; (split; [reflexivity | split; [ | discriminate]]);
          intros s0 [= <-]; reflexivity.
      * (* an object with its own then *)
        cbn [isPromiseLike]. cbv beta iota. unfold thenable_then, bind.
        destruct (then_calls_fold calls w1) as (w2 & Hc). unfold bind in Hc. rewrite Hc.
        destruct finish as [ | [v | e] | e]; simpl; unfold bind, ret, throw;
          fail_cases;
          eexists _, _; (split; [reflexivity | split; [ | discriminate]]);
          intros s0 E; try discriminate E; injection E as <-; reflexivity.
    + fail_cases. eexists _, _. split; [reflexivity | split; [ | discriminate]].
      intros s0 [= <-]. reflexivity.
  - rewrite update_pending_spec. unfold bind, ret.
    destruct (spec_update_returns (Later p) cb w) as (s & w' & -> & Hwf & Hp).
    exists (Some s), w'. split; [reflexivity | split].
    + intros s0 [= <-].
      destruct s as [r0 | [r0 | e | ]]; simpl in *; try discriminate; try reflexivity;
        unfold shaped, one_sided in *; destruct (Result.isOk r0); try assumption;
        apply andb_true_iff in Hwf as [H _]; exact H.
    + intros _. specialize (Hp eq_refl). destruct s as [r0 | q]; [discriminate | eauto].
Qed.

Lemma well_formed_built (s : slot) : well_formed s = true -> built s = true.
Proof.
  destruct s as [r0 | [r0 | e | ]]; simpl; intros Hwf; try discriminate; try reflexivity;
    unfold shaped, one_sided in *; destruct (Result.isOk r0); try assumption;
    apply andb_true_iff in Hwf as [H _]; exact H.
Qed.

End Updater.

Section UpdaterExamples.
#[local] Existing Instance example_host.

Lemma update_folds_witness :
  exists s w',
    Spec.update (Now (ok (VNum 42)))
      (fun r => ret (VPromise (Rejected (VStr "rejected in callback")))) w0
    = (Normal s, w')
    /\ Result.update (Now (ok (VNum 42)))
         (fun r => ret (VPromise (Rejected (VStr "rejected in callback")))) w0
       = (Normal (Some s), w').
Proof.
  refine (@update_folds _ _ (Now (ok (VNum 42)))
            (fun r => ret (VPromise (Rejected (VStr "rejected in callback")))) w0 _).
  intros r x w1 _ [= <- _]. reflexivity.
Defined.

Example update_immediate_rejection :
  Result.update (Now (ok (VNum 42)))
    (fun r => ret (VPromise (Rejected (VStr "rejected in callback")))) w0
  = (Normal
       (Some (Later (Fulfilled
          {| isOk := false; error := VError 1 "rejected in callback"; value := VUndefined |}))),
     {| next_id := 2; store := [] |}).
Proof. reflexivity. Qed.

Example update_immediate_value :
  Result.update (Now (ok VUndefined)) (fun r => ret (VNum 42)) w0
  = (Normal (Some (Now {| isOk := true; error := VUndefined; value := VNum 42 |})), w0).
Proof. reflexivity. Qed.

Example update_pending_rejection :
  Result.update (Later (Fulfilled (ok (VNum 42))))
    (fun r => ret (VPromise (Rejected (VStr "rejected in callback")))) w0
  = (Normal (Some (Later (Fulfilled
       {| isOk := false; error := VError 1 "rejected in callback"; value := VUndefined |}))),
     {| next_id := 2; store := [] |}).
Proof. reflexivity. Qed.

(** A pending input that rejects: the callback is not applied. *)
Example update_rejected_input :
  Result.update (Later (Rejected (VStr "late")))
    (logged "cb" (fun _ => ret (VNum 1)) ∘ value) w0
  = (Normal (Some (Later (Fulfilled
       {| isOk := false; error := VError 1 "late"; value := VUndefined |}))),
     {| next_id := 2; store := [] |}).
Proof. reflexivity. Qed.

(** C2, counterexample.  The input is immediate and the callback returns
    an object with a [then] of its own.  [update] calls that method and
    returns what it returns.  For [{ then() {} }] that is [undefined]:
    not a pending result, and not a result at all.  For
    [{ then(f) { return f(p) } }], where [p] is a promise that rejects, it
    is a promise resolved to a success that holds [p]: neither [ok] of a
    resolved value nor [fail] of the rejection reason. *)
Lemma update_unchecked_counterexample :
  isPromiseLike inert = true
  /\ Result.update (Now (ok (VNum 1))) (fun _ => ret inert) w0 = (Normal None, w0)
  /\ isPromiseLike (handing (VPromise (Rejected (VStr "late")))) = true
  /\ Result.update (Now (ok (VNum 1)))
       (fun _ => ret (handing (VPromise (Rejected (VStr "late"))))) w0
     = (Normal
          (Some (Later (Fulfilled
             {| isOk := true; error := VUndefined;
                value := VPromise (Rejected (VStr "late")) |}))),
        w0).
Proof. repeat split. Qed.

End UpdaterExamples.

Section Next.
Context {St : Type} {RT : Runtime St}.

Lemma next_spec (c : Core.Safe) (cb : SafeResult -> js St val) (w : world St) :
  (forall r x w1, Core.result c = Now r -> cb r w = (Normal x, w1) -> regular x = true) ->
  Core.next c cb w
  = (let* s := Spec.update (Core.result c) cb in ret (Core.createChain s)) w.
Proof.
  intros Hreg. unfold Core.next, bind. rewrite update_spec by exact Hreg.
  unfold bind, ret.
  destruct (Spec.update (Core.result c) cb w) as [[s | e] w']; reflexivity.
Qed.

Lemma next_pending_spec (p : promise val SafeResult)
    (cb : SafeResult -> js St val) (w : world St) :
  Core.next (Core.createChain (Later p)) cb w
  = (let* s := Spec.update (Later p) cb in ret (Core.createChain s)) w.
Proof. apply next_spec. simpl. discriminate. Qed.

(** A regular callback: the operation returns a well-formed chain. *)
Lemma next_returns (c : Core.Safe) (cb : SafeResult -> js St val) (w : world St) :
  (forall r x w1, Core.result c = Now r -> cb r w = (Normal x, w1) -> regular x = true) ->
  exists c' w',
    Core.next c cb w = (Normal c', w')
    /\ well_formed (Core.result c') = true
    /\ (is_pending (Core.result c) = true -> is_pending (Core.result c') = true).
Proof.
  intros Hreg. rewrite next_spec by exact Hreg. unfold bind, ret.
  destruct (spec_update_returns (Core.result c) cb w) as (s & w' & -> & Hwf & Hp).
  exists (Core.createChain s), w'. auto.
Qed.

(** Any callback: an operation that returns, returns a chain whose result
    has one of the two shapes. *)
Lemma next_built (c c' : Core.Safe) (cb : SafeResult -> js St val) (w w' : world St) :
  Core.next c cb w = (Normal c', w') -> built (Core.result c') = true.
Proof.
  unfold Core.next, bind.
  destruct (update_returns (Core.result c) cb w) as (o & w1 & -> & Hb & _).
  destruct o as [s | ]; simpl; js_unfold.
  - intros [= <- _]. apply Hb. reflexivity.
  - discriminate.
Qed.

End Next.

(** ** Chains *)

Section ChainBasics.
Context {St : Type} {RT : Runtime St}.

Lemma eta_result (r : SafeResult) :
  {| isOk := Result.isOk r; error := error r; value := value r |} = r.
Proof. destruct r; reflexivity. Qed.

Lemma shaped_ok (r : SafeResult) :
  shaped r = true -> Result.isOk r = true ->
  ok (value r) = r /\ isPromiseLike (value r) = false.
Proof.
  destruct r as [b e v]; unfold shaped; simpl. intros H ->.
  apply andb_true_iff in H as [He Hv]. apply negb_true_iff in Hv.
  destruct e; try discriminate. split; [reflexivity | exact Hv].
Qed.

Lemma shaped_fail (r : SafeResult) :
  shaped r = true -> Result.isOk r = false ->
  {| isOk := false; error := error r; value := VUndefined |} = r.
Proof.
  destruct r as [b e v]; unfold shaped; simpl. intros H ->.
  destruct v; try discriminate. reflexivity.
Qed.

Lemma holding_eventual (s : slot) (r : SafeResult) :
  eventual s = Some r -> holding s r = s.
Proof.
  destruct s as [r0 | [r0 | e | ]]; simpl; intros [= ->]; reflexivity.
Qed.

(** [unwrap] and [isOk] read the chain and change nothing. *)
Lemma unwrap_reads (c : Core.Safe) (w : world St) :
  Core.unwrap c w
  = (match Core.result c with
     | Now r => if Result.isOk r then Normal (value r) else Throw (error r)
     | Later _ => Normal (VPromise (observe (Core.result c)))
     end, w).
Proof.
  destruct c as [[r | [r | e | ]]]; unfold Core.unwrap, observe; simpl; js_unfold.
  - destruct (Result.isOk r); reflexivity.
  - destruct (Result.isOk r); reflexivity.
  - reflexivity.
  - reflexivity.
Qed.

Lemma isOk_reads (c : Core.Safe) (w : world St) :
  Core.isOk c w
  = (Normal
       match Core.result c with
       | Now r => VBool (Result.isOk r)
       | Later (Fulfilled r) => VPromise (Fulfilled (VBool (Result.isOk r)))
       | Later (Rejected e) => VPromise (Rejected e)
       | Later Unsettled => VPromise Unsettled
       end, w).
Proof. destruct c as [[r | [r | e | ]]]; reflexivity. Qed.

End ChainBasics.

Section ShortCircuit.
Context {St : Type} {RT : Runtime St}.

(** On a failing chain [map] passes the prior error to [fail] again and
    does nothing else: the transform does not occur on the right-hand
    side, so it is never invoked. *)
Lemma map_skips_transform (c : Core.Safe) (r : SafeResult)
    (f : val -> js St val) (w : world St) :
  eventual (Core.result c) = Some r ->
  Result.isOk r = false ->
  Core.map c f w
  = (let* r' := fail (error r) in
     ret (Core.createChain (holding (Core.result c) r'))) w.
Proof.
  intros Hr Hok. destruct c as [[r0 | [r0 | e | ]]]; simpl in Hr;
    try discriminate; injection Hr as ->;
    unfold Core.map, Core.next, Result.update, holding; simpl; js_unfold;
    rewrite Hok; fail_cases; reflexivity.
Qed.

(** When the error is an instance of Error the chain is returned
    unchanged, with the same error object, and nothing is allocated. *)
Lemma map_keeps_error (c : Core.Safe) (r : SafeResult)
    (f : val -> js St val) (w : world St) :
  eventual (Core.result c) = Some r ->
  Result.isOk r = false ->
  shaped r = true ->
  instanceof_Error (error r) = true ->
  Core.map c f w = (Normal c, w).
Proof.
  intros Hr Hok Hs He. rewrite (map_skips_transform c f w Hr Hok).
  unfold bind. rewrite (fail_Error _ w He). unfold ret.
  rewrite (shaped_fail _ Hs Hok), (holding_eventual _ Hr).
  destruct c; reflexivity.
Qed.

(** C8 (as amended).  On every chain that failed, [map] never invokes its
    transform: the chain and the world it returns are the same for every
    transform, those of folding the prior error once more.  When that error
    is an instance of Error, the chain returned is the chain itself, holding
    the same error object, and the world is untouched. *)
Theorem map_short_circuit (c : Core.Safe) (r : SafeResult)
    (f : val -> js St val) (w : world St) :
  eventual (Core.result c) = Some r ->
  Result.isOk r = false ->
  shaped r = true ->
  (forall g : val -> js St val, Core.map c g w = Core.map c f w)
  /\ Core.map c f w
     = (let* r' := fail (error r) in
        ret (Core.createChain (holding (Core.result c) r'))) w
  /\ (instanceof_Error (error r) = true -> Core.map c f w = (Normal c, w)).
Proof.
  intros Hr Hok Hs. split; [ | split].
  - intros g. now rewrite !(map_skips_transform c _ w Hr Hok).
  - exact (map_skips_transform c f w Hr Hok).
  - intros He. exact (map_keeps_error c f w Hr Hok Hs He).
Qed.

End ShortCircuit.

Section ShortCircuitExamples.
#[local] Existing Instance example_host.

Lemma map_short_circuit_witness :
  Core.map
    (Core.createChain (Now {| isOk := false; error := VError 0 "e"; value := VUndefined |}))
    (logged "f" (fun x => ret (VNum 2))) w0
  = (Normal
       (Core.createChain (Now {| isOk := false; error := VError 0 "e"; value := VUndefined |})),
     w0).
Proof.
  exact (proj2 (proj2 (@map_short_circuit _ _
                         (Core.createChain
                            (Now {| isOk := false; error := VError 0 "e"; value := VUndefined |}))
                         {| isOk := false; error := VError 0 "e"; value := VUndefined |}
                         (logged "f" (fun x => ret (VNum 2))) w0
                         eq_refl eq_refl eq_refl)) eq_refl).
Defined.

(** Scenario B: the second [map] body never runs and the failure still
    holds the Error raised by the first. *)
Example scenario_B :
  (let* c0 := Core.safeValue (VNum 1) in
   let* c1 := Core.map c0 (logged "first" (fun _ => let* e := new_Error (Some "e") in throw e)) in
   let* c2 := Core.map c1 (logged "second" (fun x => ret x)) in
   ret (Core.result c1, Core.result c2)) w0
  = (Normal
       (Now {| isOk := false; error := VError 1 "e"; value := VUndefined |},
        Now {| isOk := false; error := VError 1 "e"; value := VUndefined |}),
     {| next_id := 2; store := [("first", VNum 1)] |}).
Proof. reflexivity. Qed.

(** C8, counterexample.  A thunk raises [hostile], whose [toJSON] raises
    the string boom: [normalizeError] returns that string, so the chain
    fails with a string for an error.  [map] does not invoke its transform,
    but the chain it returns holds a new Error object, not the original
    error. *)
Lemma map_replaces_unstructured_error :
  Core.safeExec (throw hostile) w0
  = (Normal
       (Core.createChain (Now {| isOk := false; error := VStr "boom"; value := VUndefined |})),
     w0)
  /\ Core.map
       (Core.createChain (Now {| isOk := false; error := VStr "boom"; value := VUndefined |}))
       (logged "f" (fun x => ret x)) w0
     = (Normal
          (Core.createChain
             (Now {| isOk := false; error := VError 1 "boom"; value := VUndefined |})),
        {| next_id := 2; store := [] |})
  /\ VError 1 "boom" <> VStr "boom".
Proof. repeat split; discriminate. Qed.

End ShortCircuitExamples.

Section Watch.
Context {St : Type} {RT : Runtime St}.

(** On a shaped result whose failure, if any, holds an instance of Error,
    [watch] returns a chain with the same result whatever the consumer
    does. *)
Lemma watch_keeps_chain (c : Core.Safe) (r : SafeResult)
    (consumer : SafeResult -> js St val) (w : world St) :
  eventual (Core.result c) = Some r ->
  shaped r = true ->
  structured r = true ->
  Core.watch c consumer w = (Normal c, snd (consumer r w)).
Proof.
  intros Hr Hs He. unfold structured in He.
  destruct c as [[r0 | [r0 | e | ]]]; simpl in Hr;
    try discriminate; injection Hr as ->;
    unfold Core.watch, Core.next, Result.update; simpl; js_unfold;
    rewrite (eta_result r);
    destruct (consumer r w) as [[x | e] w1]; simpl;
    destruct (Result.isOk r) eqn:Hok; simpl in He;
    try (destruct (shaped_ok r Hs Hok) as [Hv Hp]);
    rewrite ?Hp, ?settle_plain, ?Hv by assumption;
    rewrite ?(fail_Error _ _ He), ?(shaped_fail r Hs Hok);
    reflexivity.
Qed.

(** A chain that never resolves never calls the consumer. *)
Lemma watch_unsettled (consumer : SafeResult -> js St val) (w : world St) :
  Core.watch (Core.createChain (Later Unsettled)) consumer w
  = (Normal (Core.createChain (Later Unsettled)), w).
Proof. reflexivity. Qed.

(** In general the consumer is run once and the prior outcome is folded
    again: a failure is normalized a second time. *)
Lemma watch_folds_again (c : Core.Safe) (r : SafeResult)
    (consumer : SafeResult -> js St val) (w : world St) :
  eventual (Core.result c) = Some r ->
  shaped r = true ->
  Core.watch c consumer w
  = if Result.isOk r then (Normal c, snd (consumer r w))
    else (let* r' := fail (error r) in
          ret (Core.createChain (holding (Core.result c) r'))) (snd (consumer r w)).
Proof.
  intros Hr Hs.
  destruct c as [[r0 | [r0 | e | ]]]; simpl in Hr;
    try discriminate; injection Hr as ->;
    unfold Core.watch, Core.next, Result.update, holding; simpl; js_unfold;
    rewrite (eta_result r);
    destruct (consumer r w) as [[x | e] w1]; simpl;
    destruct (Result.isOk r) eqn:Hok;
    try (destruct (shaped_ok r Hs Hok) as [Hv Hp]);
    rewrite ?Hp, ?settle_plain, ?Hv by assumption;
    fail_cases; reflexivity.
Qed.

(** Where [watch] does observe without affecting: on a well-formed chain
    whose failure, if it failed, holds an instance of Error.  It returns a
    chain with the same result, so [unwrap] and [isOk] answer as before.
    The consumer is run once on a copy of the resolved result, success or
    failure, and not at all while the chain is unresolved; the only trace
    it leaves is what it did to the world: the value it returns, a promise
    it returns (which is not waited for) and what it raises are dropped. *)
Lemma watch_isolation (c : Core.Safe)
    (consumer : SafeResult -> js St val) (w : world St) :
  well_formed (Core.result c) = true ->
  (forall r, eventual (Core.result c) = Some r -> structured r = true) ->
  Core.watch c consumer w
  = (Normal c,
     match eventual (Core.result c) with
     | Some r => snd (consumer r w)
     | None => w
     end)
  /\ forall c' w', Core.watch c consumer w = (Normal c', w') ->
       fst (Core.unwrap c' w') = fst (Core.unwrap c w)
       /\ fst (Core.isOk c' w') = fst (Core.isOk c w).
Proof.
  intros Hwf He.
  assert (H : Core.watch c consumer w
              = (Normal c,
                 match eventual (Core.result c) with
                 | Some r => snd (consumer r w)
                 | None => w
                 end)).
  { destruct (eventual (Core.result c)) as [r | ] eqn:Hr.
    - apply watch_keeps_chain; [exact Hr | | exact (He r eq_refl)].
      destruct c as [[r0 | [r0 | e | ]]]; simpl in *; try discriminate;
        injection Hr as ->; exact Hwf.
    - destruct c as [[r0 | [r0 | e | ]]]; simpl in *; try discriminate.
      reflexivity. }
  split; [exact H | ].
  intros c' w' H'. rewrite H in H'. injection H' as <- <-.
  rewrite !unwrap_reads, !isOk_reads. split; reflexivity.
Qed.

End Watch.

Section WatchExamples.
#[local] Existing Instance example_host.

Example watch_with_a_raising_consumer :
  Core.watch
    (Core.createChain (Now {| isOk := false; error := VError 0 "e"; value := VUndefined |}))
    (logged_consumer "consumer" (throw (VStr "raised by the consumer"))) w0
  = (Normal
       (Core.createChain (Now {| isOk := false; error := VError 0 "e"; value := VUndefined |})),
     {| next_id := 1; store := [("consumer", VError 0 "e")] |}).
Proof. reflexivity. Qed.

(** A consumer that returns a promise which never settles does not delay
    the chain. *)
Example watch_does_not_wait :
  (let* c := Core.safeValue (VNum 42) in
   let* c' := Core.watch c (fun _ => ret (VPromise Unsettled)) in
   Core.unwrap c') w0
  = (Normal (VNum 42), w0).
Proof. reflexivity. Qed.

(** C3.  The claim: for every chain and every consumer,
    [chain.watch(c).unwrap()] equals [chain.unwrap()] and [isOk] is
    unchanged.  The code at [safe(() => { throw hostile }).watch(() => {})]:
    the thunk raises [hostile], whose [toJSON] raises the string boom;
    [normalizeError] returns that string and the chain fails with it.
    [unwrap] raises the string; after [watch], whose consumer does nothing,
    [unwrap] raises a new Error object instead.  [watch] re-raises the
    error it read and the updater normalizes it a second time. *)
Theorem watch_replaces_unstructured_error :
  (let* c := Core.safeExec (throw hostile) in Core.unwrap c) w0
  = (Throw (VStr "boom"), w0)
  /\ (let* c := Core.safeExec (throw hostile) in
      let* c' := Core.watch c (fun _ => ret VUndefined) in
      Core.unwrap c') w0
     = (Throw (VError 1 "boom"), {| next_id := 2; store := [] |})
  /\ fst ((let* c := Core.safeExec (throw hostile) in
           let* c' := Core.watch c (fun _ => ret VUndefined) in
           Core.unwrap c') w0)
     <> fst ((let* c := Core.safeExec (throw hostile) in Core.unwrap c) w0).
Proof. repeat split; discriminate. Qed.

(** The same re-folding changes [isOk]: on a pending success that holds a
    promise which rejects, built by a [map] whose callback returned
    [{ then(f) { return f(p) } }], [isOk] resolves to [true]; after
    [watch], whose consumer does nothing, it resolves to [false]. *)
Example watch_flips_a_success_holding_a_promise :
  (let* c0 := Core.safeValue (VNum 1) in
   let* c1 := Core.map c0 (fun _ => ret (handing (VPromise (Rejected (VStr "late"))))) in
   let* before := Core.isOk c1 in
   let* c2 := Core.watch c1 (fun _ => ret VUndefined) in
   let* after := Core.isOk c2 in
   ret (before, after)) w0
  = (Normal (VPromise (Fulfilled (VBool true)), VPromise (Fulfilled (VBool false))),
     {| next_id := 2; store := [] |}).
Proof. reflexivity. Qed.

End WatchExamples.

Section Recovery.
Context {St : Type} {RT : Runtime St}.

(** On a success whose value is not promise-like every operation that
    passes the value on returns a chain with the same result. *)
Lemma next_keeps_success (c : Core.Safe) (r : SafeResult)
    (cb : SafeResult -> js St val) (w w1 : world St) :
  eventual (Core.result c) = Some r ->
  shaped r = true ->
  Result.isOk r = true ->
  cb r w = (Normal (value r), w1) ->
  Core.next c cb w = (Normal c, w1).
Proof.
  intros Hr Hs Hok Hcb. destruct (shaped_ok r Hs Hok) as [Hv Hp].
  rewrite next_spec.
  - destruct c as [[r0 | [r0 | e | ]]]; simpl in Hr; try discriminate;
      injection Hr as ->; simpl; spec_unfold; rewrite Hcb, Hp;
      unfold ok in Hv; rewrite Hv; reflexivity.
  - intros r0 x w2 Hc. rewrite Hc in Hr. injection Hr as ->.
    rewrite Hcb. intros [= <- _]. apply regular_plain, Hp.
Qed.

(** C5 (as amended).  On a chain that succeeded with a value that is not
    promise-like, [catch] returns a chain with the same result and the
    world is untouched, so the handler is never invoked.  On a chain that
    failed, the handler is run once on the error the chain holds and its
    outcome is folded: an ordinary return value [x] becomes the success of
    the new chain, so that [unwrap] yields [x] (through a promise when the
    chain was pending); a promise makes the chain pending, resolving to
    what it resolves to, or to a new failure when it rejects; a raise
    gives a new failure.  On a pending chain any promise-like the handler
    returns is followed in the same way.  Nothing is said of an immediate
    failure whose handler returns an object with a [then] of its own.
    [ifFail] is the same operation. *)
Theorem catch_recovers (c : Core.Safe) (r : SafeResult)
    (h : val -> js St val) (w : world St) :
  eventual (Core.result c) = Some r ->
  shaped r = true ->
  (if Result.isOk r then Core.catch c h w = (Normal c, w)
   else
     match h (error r) w with
     | (Normal x, w1) =>
         if isPromiseLike x then
           if is_pending (Core.result c) || is_promise x then
             match settle x with
             | Fulfilled v =>
                 Core.catch c h w
                 = (Normal (Core.createChain (Later (Fulfilled (ok v)))), w1)
             | Rejected e =>
                 Core.catch c h w
                 = (let* r' := fail e in ret (Core.createChain (Later (Fulfilled r')))) w1
             | Unsettled =>
                 Core.catch c h w = (Normal (Core.createChain (Later Unsettled)), w1)
             end
           else True
         else
           Core.catch c h w
           = (Normal (Core.createChain (holding (Core.result c) (ok x))), w1)
           /\ Core.unwrap (Core.createChain (holding (Core.result c) (ok x))) w1
              = (Normal (if is_pending (Core.result c) then VPromise (Fulfilled x) else x), w1)
     | (Throw e, w1) =>
         Core.catch c h w
         = (let* r' := fail e in
            ret (Core.createChain (holding (Core.result c) r'))) w1
     end)
  /\ Core.ifFail c h w = Core.catch c h w.
Proof.
  intros Hr Hs. split; [ | reflexivity].
  destruct (Result.isOk r) eqn:Hok.
  - apply (next_keeps_success c _ w Hr Hs Hok). rewrite Hok. reflexivity.
  - destruct (h (error r) w) as [[x | e] w1] eqn:Hh.
    + assert (Hspec : is_pending (Core.result c) || regular x = true ->
                Core.catch c h w
                = (let* s := Spec.fold (Normal x) in
                   ret (Core.createChain
                          (if is_pending (Core.result c) then Spec.pending s else s))) w1).
      { intros Hreg. unfold Core.catch. rewrite next_spec.
        - destruct c as [[r0 | [r0 | e | ]]]; simpl in Hr; try discriminate;
            injection Hr as ->; simpl; spec_unfold; rewrite Hok; simpl; rewrite Hh;
            destruct (isPromiseLike x); try reflexivity;
            destruct (settle x) as [v | e | ]; normalize_cases; reflexivity.
        - intros r0 x0 w2 Hc. rewrite Hc in *. simpl in *. injection Hr as ->.
          rewrite Hok. simpl. rewrite Hh. intros [= <- _]. exact Hreg. }
      destruct (isPromiseLike x) eqn:Hx.
      * destruct (is_pending (Core.result c) || is_promise x) eqn:Hcase; [ | exact I].
        rewrite Hspec.
        -- unfold Spec.fold. rewrite Hx. spec_unfold.
           destruct (settle x) as [v | e | ]; normalize_cases;
             destruct (is_pending (Core.result c)); reflexivity.
        -- unfold regular. destruct (is_pending (Core.result c)); [reflexivity | ].
           simpl in *. rewrite Hcase. reflexivity.
      * rewrite Hspec.
        -- unfold Spec.fold. rewrite Hx. unfold holding, ret.
           split; [destruct (is_pending (Core.result c)); reflexivity | ].
           rewrite unwrap_reads. unfold observe.
           destruct (is_pending (Core.result c)); simpl; [ | reflexivity].
           rewrite (settle_plain _ Hx). reflexivity.
        -- rewrite (regular_plain _ Hx). apply orb_true_r.
    + unfold Core.catch. rewrite next_spec.
      * destruct c as [[r0 | [r0 | e0 | ]]]; simpl in Hr; try discriminate;
          injection Hr as ->; unfold holding; simpl; spec_unfold; rewrite Hok; simpl;
          rewrite Hh; normalize_cases; reflexivity.
      * intros r0 x0 w2 Hc. rewrite Hc in *. simpl in *. injection Hr as ->.
        rewrite Hok. simpl. rewrite Hh. discriminate.
Qed.

End Recovery.

Section RecoveryExamples.
#[local] Existing Instance example_host.

Lemma catch_recovers_witness :
  Core.catch
    (Core.createChain (Now {| isOk := false; error := VError 0 "e"; value := VUndefined |}))
    (logged "h" (fun _ => ret (VNum 42))) w0
  = (Normal (Core.createChain (Now (ok (VNum 42)))),
     {| next_id := 1; store := [("h", VError 0 "e")] |})
  /\ Core.unwrap (Core.createChain (Now (ok (VNum 42))))
       {| next_id := 1; store := [("h", VError 0 "e")] |}
     = (Normal (VNum 42), {| next_id := 1; store := [("h", VError 0 "e")] |}).
Proof.
  exact (proj1 (@catch_recovers _ _
                  (Core.createChain
                     (Now {| isOk := false; error := VError 0 "e"; value := VUndefined |}))
                  {| isOk := false; error := VError 0 "e"; value := VUndefined |}
                  (logged "h" (fun _ => ret (VNum 42))) w0 eq_refl eq_refl)).
Defined.

(** A handler that raises gives a new failure; it is run once. *)
Example catch_handler_raises :
  (let* c := Core.safeExec (let* e := new_Error (Some "Original error") in throw e) in
   let* c' := Core.catch c (logged "h" (fun _ =>
                let* e := new_Error (Some "Recovery error") in throw e)) in
   Core.unwrap c') w0
  = (Throw (VError 2 "Recovery error"),
     {| next_id := 3; store := [("h", VError 1 "Original error")] |}).
Proof. reflexivity. Qed.

Example catch_on_success :
  (let* c := Core.safeValue (VNum 24) in
   let* c' := Core.catch c (logged "h" (fun _ => ret (VNum 42))) in
   Core.unwrap c') w0
  = (Normal (VNum 24), w0).
Proof. reflexivity. Qed.

(** On a pending failure a handler that returns an object with a [then]
    of its own is followed as a promise would be. *)
Example catch_pending_with_thenable :
  (let* c' := Core.catch
                (Core.createChain
                   (Later (Fulfilled
                      {| isOk := false; error := VError 0 "e"; value := VUndefined |})))
                (fun _ => ret (handing (VNum 7))) in
   Core.unwrap c') w0
  = (Normal (VPromise (Fulfilled (VNum 7))), w0).
Proof. reflexivity. Qed.

(** C5, counterexample.  On an immediate failure the handler returns
    [{ then() {} }]: [catch] itself raises a TypeError, and there is no
    chain to unwrap.  And on a pending success that holds a promise which
    rejects, built by a [map] whose callback returned
    [{ then(f) { return f(p) } }], [catch] does not pass the value
    through: [isOk] resolved to [true] before and resolves to [false]
    after, though the handler was never invoked. *)
Lemma catch_thenable_counterexample :
  Core.catch
    (Core.createChain (Now {| isOk := false; error := VError 0 "e"; value := VUndefined |}))
    (logged "h" (fun _ => ret inert)) w0
  = (Throw (VError 1 no_result),
     {| next_id := 2; store := [("h", VError 0 "e")] |})
  /\ (let* c0 := Core.safeValue (VNum 1) in
      let* c1 := Core.map c0 (fun _ => ret (handing (VPromise (Rejected (VStr "late"))))) in
      let* before := Core.isOk c1 in
      let* c2 := Core.catch c1 (logged "h" (fun _ => ret (VNum 42))) in
      let* after := Core.isOk c2 in
      ret (before, after)) w0
     = (Normal (VPromise (Fulfilled (VBool true)), VPromise (Fulfilled (VBool false))),
        {| next_id := 2; store := [] |}).
Proof. split; reflexivity. Qed.

End RecoveryExamples.

Section EffectLaw.
Context {St : Type} {RT : Runtime St}.

(** What the callback of [effect] hands to the updater on a success whose
    value is not promise-like, when [f] is regular. *)
Lemma effect_callback (r : SafeResult) (f : val -> js St val) (w : world St) :
  Result.isOk r = true ->
  isPromiseLike (value r) = false ->
  (if negb (Result.isOk r) then throw (error r)
   else
     let* v := f (value r) in
     if isPromiseLike v then
       match v with
       | VThenable calls finish =>
           let* returned :=
             thenable_then calls finish
               (fun _ => ret (value r))
               (fun _ => not_a_function "onRejected") in
           ret (default VUndefined returned)
       | _ =>
           let* p :=
             Promise_then (settle v) (fun _ => ret (settle (value r))) None in
           ret (VPromise p)
       end
     else ret (value r)) w
  = match f (value r) w with
    | (Normal x, w1) =>
        if isPromiseLike x then
          match x with
          | VThenable calls finish =>
              (let* returned :=
                 thenable_then calls finish
                   (fun _ => ret (value r))
                   (fun _ => not_a_function "onRejected") in
               ret (default VUndefined returned)) w1
          | _ =>
              (Normal (VPromise match settle x with
                                | Fulfilled _ => Fulfilled (value r)
                                | Rejected e => Rejected e
                                | Unsettled => Unsettled
                                end), w1)
          end
        else (Normal (value r), w1)
    | (Throw e, w1) => (Throw e, w1)
    end.
Proof.
  intros Hok Hp. rewrite Hok. simpl. unfold bind at 1.
  destruct (f (value r) w) as [[x | e] w1]; [ | reflexivity].
  destruct (isPromiseLike x) eqn:Hx; [ | reflexivity].
  destruct x as [ | | b | n | n | s | i m | i | p | calls finish]; try discriminate Hx;
    [ | reflexivity].
  generalize (settle (VPromise p)). intros [v | e | ]; js_unfold;
    rewrite ?(settle_plain _ Hp); reflexivity.
Qed.

(** C6 (as amended).  On a chain that succeeded with a value that is not
    promise-like, [effect] runs [f] once on the value and keeps the value:
    when [f] returns an ordinary value a chain with the same result is
    returned, whatever that value; when [f] returns a promise the chain
    becomes pending and, once the promise resolves, holds the original
    result, so that [unwrap] resolves to the original value; it never
    resolves if the promise never does; a rejection of the promise and a
    raise of [f] make the chain fail.  Nothing is said of an [f] that
    returns an object with a [then] of its own.  [ifOk] is the same
    operation. *)
Theorem effect_transparent (c : Core.Safe) (r : SafeResult)
    (f : val -> js St val) (w : world St) :
  eventual (Core.result c) = Some r ->
  shaped r = true ->
  Result.isOk r = true ->
  match f (value r) w with
  | (Normal x, w1) =>
      if isPromiseLike x then
        if is_promise x then
          match settle x with
          | Fulfilled _ =>
              Core.effect c f w = (Normal (Core.createChain (Later (Fulfilled r))), w1)
              /\ Core.unwrap (Core.createChain (Later (Fulfilled r))) w1
                 = (Normal (VPromise (Fulfilled (value r))), w1)
          | Rejected e =>
              Core.effect c f w
              = (let* r' := fail e in ret (Core.createChain (Later (Fulfilled r')))) w1
          | Unsettled =>
              Core.effect c f w = (Normal (Core.createChain (Later Unsettled)), w1)
          end
        else True
      else Core.effect c f w = (Normal c, w1)
  | (Throw e, w1) =>
      Core.effect c f w
      = (let* r' := fail e in
         ret (Core.createChain (holding (Core.result c) r'))) w1
  end
  /\ Core.ifOk c f w = Core.effect c f w.
Proof.
  intros Hr Hs Hok. split; [ | reflexivity].
  destruct (shaped_ok r Hs Hok) as [Hv Hp].
  pose proof (effect_callback r f w Hok Hp) as Hcb.
  destruct (f (value r) w) as [[x | e] w1] eqn:Hf.
  - destruct (isPromiseLike x) eqn:Hx.
    + destruct x as [ | | b | n | n | s | i m | i | p | calls finish];
        try discriminate Hx; [ | exact I].
      cbn [is_promise].
      assert (Hnext : Core.effect c f w
                = (let* s := Spec.resolved
                               match settle (VPromise p) with
                               | Fulfilled _ => Fulfilled (value r)
                               | Rejected e => Rejected e
                               | Unsettled => Unsettled
                               end in
                   ret (Core.createChain s)) w1).
      { unfold Core.effect. rewrite next_spec.
        - destruct c as [[r0 | [r0 | e | ]]]; simpl in Hr; try discriminate;
            injection Hr as ->; cbn [Core.result];
            unfold Spec.update, Spec.outcome, bind at 1 2; rewrite Hcb;
            generalize (settle (VPromise p)); intros [v | e | ];
            cbn [Spec.fold isPromiseLike settle]; rewrite ?(settle_plain _ Hp);
            spec_unfold; normalize_cases; reflexivity.
        - intros r0 x0 w2 Hc. rewrite Hc in Hr. injection Hr as ->.
          rewrite Hcb. intros [= <- _]. reflexivity. }
      rewrite Hnext. clear Hnext Hcb.
      generalize (settle (VPromise p)). intros [v | e | ]; spec_unfold.
      * unfold ok in Hv. rewrite Hv. split; [reflexivity | ].
        rewrite unwrap_reads. unfold observe. simpl.
        rewrite Hok, (settle_plain _ Hp). reflexivity.
      * normalize_cases. reflexivity.
      * reflexivity.
    + apply (next_keeps_success c _ w Hr Hs Hok). exact Hcb.
  - unfold Core.effect. rewrite next_spec.
    + destruct c as [[r0 | [r0 | e0 | ]]]; simpl in Hr; try discriminate;
        injection Hr as ->; cbn [Core.result];
        unfold Spec.update, Spec.outcome, bind at 1 2; rewrite Hcb;
        unfold holding; simpl; spec_unfold; normalize_cases; reflexivity.
    + intros r0 x0 w2 Hc. rewrite Hc in Hr. injection Hr as ->.
      rewrite Hcb. discriminate.
Qed.

End EffectLaw.

Section EffectExamples.
#[local] Existing Instance example_host.

Lemma effect_transparent_witness :
  Core.effect (Core.createChain (Now (ok (VNum 42))))
    (logged "f" (fun _ => ret (VPromise (Fulfilled (VStr "different value"))))) w0
  = (Normal (Core.createChain (Later (Fulfilled (ok (VNum 42))))),
     {| next_id := 1; store := [("f", VNum 42)] |})
  /\ Core.unwrap (Core.createChain (Later (Fulfilled (ok (VNum 42)))))
       {| next_id := 1; store := [("f", VNum 42)] |}
     = (Normal (VPromise (Fulfilled (VNum 42))),
        {| next_id := 1; store := [("f", VNum 42)] |}).
Proof.
  exact (proj1 (@effect_transparent _ _
                  (Core.createChain (Now (ok (VNum 42)))) (ok (VNum 42))
                  (logged "f" (fun _ => ret (VPromise (Fulfilled (VStr "different value")))))
                  w0 eq_refl eq_refl eq_refl)).
Defined.

Example effect_returning_a_value :
  (let* c := Core.safeValue (VNum 42) in
   let* c' := Core.effect c (logged "f" (fun _ => ret (VStr "different value"))) in
   Core.unwrap c') w0
  = (Normal (VNum 42), {| next_id := 1; store := [("f", VNum 42)] |}).
Proof. reflexivity. Qed.

Example effect_rejected :
  (let* c := Core.safeValue (VNum 42) in
   let* c' := Core.ifOk c (fun _ => ret (VPromise (Rejected (VError 0 "IfOk error")))) in
   Core.unwrap c') w0
  = (Normal (VPromise (Rejected (VError 0 "IfOk error"))), w0).
Proof. reflexivity. Qed.

Example effect_on_failure_is_skipped :
  (let* c := Core.safeExec (throw (VError 0 "Chain error")) in
   let* c' := Core.effect c (logged "f" (fun x => ret x)) in
   Core.isOk c') w0
  = (Normal (VBool false), w0).
Proof. reflexivity. Qed.

(** An object whose [then] returns what the handler gives keeps the
    value. *)
Example effect_with_a_forwarding_thenable :
  (let* c := Core.safeValue (VNum 42) in
   let* c' := Core.effect c (fun _ => ret (handing (VStr "different value"))) in
   Core.unwrap c') w0
  = (Normal (VNum 42), w0).
Proof. reflexivity. Qed.

(** C6, counterexample.  [f] returns [{ then() {} }].  [effect] returns
    what that method returns, [undefined], as the value of the chain: the
    chain is an immediate success and [unwrap] yields [undefined], not the
    original value.  And on a pending success that holds a promise which
    rejects with a string, built by a [map] whose callback returned
    [{ then(f) { return f(p) } }], [unwrap] rejects with the string before
    [effect] and with a new Error object after it, whatever [f] returns. *)
Lemma effect_thenable_counterexample :
  (let* c := Core.safeValue (VNum 42) in Core.unwrap c) w0 = (Normal (VNum 42), w0)
  /\ (let* c := Core.safeValue (VNum 42) in
      let* c' := Core.effect c (logged "f" (fun _ => ret inert)) in
      Core.unwrap c') w0
     = (Normal VUndefined, {| next_id := 1; store := [("f", VNum 42)] |})
  /\ (let* c0 := Core.safeValue (VNum 1) in
      let* c1 := Core.map c0 (fun _ => ret (handing (VPromise (Rejected (VStr "late"))))) in
      let* before := Core.unwrap c1 in
      let* c2 := Core.effect c1 (fun _ => ret VUndefined) in
      let* after := Core.unwrap c2 in
      ret (before, after)) w0
     = (Normal (VPromise (Rejected (VStr "late")), VPromise (Rejected (VError 1 "late"))),
        {| next_id := 2; store := [] |}).
Proof. repeat split. Qed.

End EffectExamples.

Section Terminal.
Context {St : Type} {RT : Runtime St}.




End Terminal.

Section TerminalExamples.
#[local] Existing Instance example_host.


(** Scenario E. *)
Example scenario_E :
  (let* c := Core.safeExec (let* e := new_Error (Some "Test error") in throw e) in
   Core.orElse c (VNum 100)) w0
  = (Normal (VNum 100), {| next_id := 2; store := [] |}).
Proof. reflexivity. Qed.

(** On a success the fallback is not looked at, even when it is a promise
    that rejects or an object with a [then] of its own. *)
Example orElse_on_success :
  (let* c := Core.safeValue (VNum 7) in
   let* x := Core.orElse c (VPromise (Rejected (VStr "late"))) in
   let* y := Core.orElse c inert in
   ret (x, y)) w0
  = (Normal (VNum 7, VNum 7), w0).
Proof. reflexivity. Qed.


End TerminalExamples.

(** ** Construction *)

Section Construction.
Context {St : Type} {RT : Runtime St}.

(** The constructors wrap the first [map] in a [try]: when [createChain]
    raises on what the updater returned, the error is put in a chain by a
    second [map].  Neither constructor raises, whatever they are given. *)
Lemma construction_returns (fn : js St val) (w : world St) :
  exists c w',
    try_catch
      (Core.map (Core.createChain (Now (ok VUndefined))) (fun _ => fn))
      (fun e => Core.map (Core.createChain (Now (ok VUndefined))) (fun _ => throw e)) w
    = (Normal c, w')
    /\ built (Core.result c) = true.
Proof.
  unfold try_catch.
  destruct (Core.map (Core.createChain (Now (ok VUndefined))) (fun _ => fn) w)
    as [[c | e] w1] eqn:Hmap.
  - exists c, w1. split; [reflexivity | ]. exact (next_built _ _ _ Hmap).
  - unfold Core.map, Core.next, Result.update; simpl; js_unfold.
    fail_cases. eexists _, _. split; reflexivity.
Qed.


Lemma safeValue_returns (v : val) (w : world St) :
  exists c w', Core.safeValue v w = (Normal c, w') /\ built (Core.result c) = true.
Proof. apply (construction_returns (ret v)). Qed.

(** A regular outcome of the thunk is folded as the rules say. *)
Lemma construction_spec (fn : js St val) (w : world St) :
  match fn w with
  | (Normal x, _) => regular x = true
  | (Throw _, _) => True
  end ->
  try_catch
    (Core.map (Core.createChain (Now (ok VUndefined))) (fun _ => fn))
    (fun e => Core.map (Core.createChain (Now (ok VUndefined))) (fun _ => throw e)) w
  = (let* o := Spec.outcome fn in
     let* s := Spec.fold o in
     ret (Core.createChain s)) w.
Proof.
  intros Hreg. unfold Core.map at 1. unfold try_catch. rewrite next_spec.
  - simpl. spec_unfold. destruct (fn w) as [[x | e] w1].
    + destruct (isPromiseLike x); [ | reflexivity].
      destruct (settle x) as [v | e | ]; normalize_cases; reflexivity.
    + normalize_cases. reflexivity.
  - simpl. intros r x w1 [= <-]. simpl. intros E. rewrite E in Hreg. exact Hreg.
Qed.

(** A thunk that raises gives an immediate failure holding the normalized
    form of what it raised. *)
Lemma safeExec_raises (fn : js St val) (e : val) (w w1 : world St) :
  fn w = (Throw e, w1) ->
  Core.safeExec fn w = (let* r := fail e in ret (Core.createChain (Now r))) w1.
Proof.
  intros H. unfold Core.safeExec. rewrite construction_spec by now rewrite H.
  spec_unfold. rewrite H. normalize_cases. reflexivity.
Qed.

Lemma safeValue_of_promise (p : promise val val) (w : world St) :
  exists q w',
    Core.safeValue (VPromise p) w = (Normal (Core.createChain (Later q)), w')
    /\ well_formed (Later q) = true.
Proof.
  unfold Core.safeValue. rewrite construction_spec by reflexivity.
  spec_unfold. change (isPromiseLike (VPromise p)) with true. cbv iota.
  generalize (settle_fulfilled_plain (VPromise p)).
  generalize (settle (VPromise p)). intros [v | e | ] Hv;
    normalize_cases; eexists _, _; (split; [reflexivity | ]); try reflexivity.
  unfold well_formed, shaped. simpl. now rewrite (Hv v eq_refl).
Qed.

(** C1 (as amended).  For a value that is not promise-like, [safeValue]
    builds the immediate success wrapping it: [unwrap] returns the value
    and [isOk] is [true].  A promise goes through the same test as every
    callback outcome: the chain is pending, and resolves to [ok] of what
    the promise resolves to, or to [fail] of its rejection reason.  For an
    object with a [then] of its own, [safeValue] still returns a chain and
    does not raise; which chain is not said. *)
Theorem safeValue_wraps (v : val) (w : world St) :
  if isPromiseLike v then
    if is_promise v then
      match settle v with
      | Fulfilled a =>
          Core.safeValue v w = (Normal (Core.createChain (Later (Fulfilled (ok a)))), w)
      | Rejected e =>
          Core.safeValue v w
          = (let* r := fail e in ret (Core.createChain (Later (Fulfilled r)))) w
      | Unsettled =>
          Core.safeValue v w = (Normal (Core.createChain (Later Unsettled)), w)
      end
    else exists c w', Core.safeValue v w = (Normal c, w')
  else
    Core.safeValue v w = (Normal (Core.createChain (Now (ok v))), w)
    /\ Core.unwrap (Core.createChain (Now (ok v))) w = (Normal v, w)
    /\ Core.isOk (Core.createChain (Now (ok v))) w = (Normal (VBool true), w).
Proof.
  destruct (isPromiseLike v) eqn:Hv.
  - destruct (is_promise v) eqn:Hp.
    + unfold Core.safeValue. rewrite construction_spec.
      * spec_unfold. rewrite Hv.
        destruct (settle v) as [a | e | ]; normalize_cases; reflexivity.
      * simpl. unfold regular. rewrite Hp. reflexivity.
    + destruct (safeValue_returns v w) as (c & w' & H & _). eauto.
  - unfold Core.safeValue. rewrite construction_spec.
    + spec_unfold. rewrite Hv. repeat split.
    + simpl. apply regular_plain, Hv.
Qed.

Lemma safeEmpty_well_formed : well_formed (Core.result Core.safeEmpty) = true.
Proof. reflexivity. Qed.

End Construction.

Section ConstructionExamples.
#[local] Existing Instance example_host.

(** C1, counterexample.  [v] is a promise that rejects with the string
    late.  The chain [safeValue] builds from it is pending, not an immediate
    success; its [isOk] is a promise that resolves to [false], not [true];
    and [unwrap] returns a promise rejecting with a new Error object, which
    is not [v].  And for [{ then() {} }], which passes the same test, the
    first [map] raises a TypeError and the constructor's own [catch] builds
    an immediate failure holding it: [isOk] is [false] and [unwrap]
    raises. *)
Lemma safeValue_pending_counterexample :
  Core.safeValue (VPromise (Rejected (VStr "late"))) w0
  = (Normal
       (Core.createChain
          (Later (Fulfilled {| isOk := false; error := VError 1 "late"; value := VUndefined |}))),
     {| next_id := 2; store := [] |})
  /\ (let* c := Core.safeValue (VPromise (Rejected (VStr "late"))) in Core.isOk c) w0
     = (Normal (VPromise (Fulfilled (VBool false))), {| next_id := 2; store := [] |})
  /\ (let* c := Core.safeValue (VPromise (Rejected (VStr "late"))) in Core.unwrap c) w0
     = (Normal (VPromise (Rejected (VError 1 "late"))), {| next_id := 2; store := [] |})
  /\ fst ((let* c := Core.safeValue (VPromise (Rejected (VStr "late"))) in Core.isOk c) w0)
     <> Normal (VBool true)
  /\ fst ((let* c := Core.safeValue (VPromise (Rejected (VStr "late"))) in Core.unwrap c) w0)
     <> Normal (VPromise (Rejected (VStr "late")))
  /\ Core.safeValue inert w0
     = (Normal
          (Core.createChain
             (Now {| isOk := false; error := VError 1 no_result; value := VUndefined |})),
        {| next_id := 2; store := [] |})
  /\ (let* c := Core.safeValue inert in Core.unwrap c) w0
     = (Throw (VError 1 no_result), {| next_id := 2; store := [] |}).
Proof. repeat split; discriminate. Qed.

(** Scenarios A, C and D. *)
Example scenario_A :
  (let* c0 := Core.safeValue (VNum 5) in
   let* c1 := Core.map c0 (times 2) in
   let* c2 := Core.map c1 (plus 3) in
   Core.unwrap c2) w0
  = (Normal (VNum 13), w0).
Proof. reflexivity. Qed.

Example scenario_C :
  (let* c := Core.safeExec (throw (VStr "str-error")) in ret (Core.result c)) w0
  = (Normal (Now {| isOk := false; error := VError 1 "str-error"; value := VUndefined |}),
     {| next_id := 2; store := [] |}).
Proof. reflexivity. Qed.

Example scenario_D :
  (let* c0 := Core.safeValue (VNum 2) in
   let* c1 := Core.map c0 (fun x => let* y := times 2 x in ret (VPromise (Fulfilled y))) in
   Core.unwrap c1) w0
  = (Normal (VPromise (Fulfilled (VNum 4))), w0).
Proof. reflexivity. Qed.

(** A callback that returns [{ then() {} }] makes [map] raise. *)
Example map_raises :
  (let* c0 := Core.safeValue (VNum 1) in Core.map c0 (fun _ => ret inert)) w0
  = (Throw (VError 1 no_result), {| next_id := 2; store := [] |}).
Proof. reflexivity. Qed.

End ConstructionExamples.

(** ** Pending chains stay pending *)

Lemma last_default {A : Type} (l : list A) (a d d' : A) :
  List.last (a :: l) d = List.last (a :: l) d'.
Proof.
  revert a. induction l as [ | b l IH]; intros a; [reflexivity | ].
  change (List.last (b :: l) d = List.last (b :: l) d'). apply IH.
Qed.

Lemma last_cons {A : Type} (l : list A) (x d : A) :
  List.last (x :: l) d = List.last l x.
Proof.
  destruct l as [ | a l]; [reflexivity | ].
  change (List.last (a :: l) d = List.last (a :: l) x). apply last_default.
Qed.

Section Monotonicity.
Context {St : Type} {RT : Runtime St}.

Lemma pending_answers_later (c : Core.Safe) :
  is_pending (Core.result c) = true -> answers_later (St := St) c.
Proof.
  intros H. split; [exact H | ].
  destruct c as [[r | p]]; simpl in H; try discriminate.
  split; intros w.
  - rewrite isOk_reads. simpl. destruct p; eauto.
  - rewrite unwrap_reads. simpl. eauto.
Qed.

(** Every operation is one call of [next].  On a pending chain it goes
    through the first branch of the updater, whatever the callback: it does
    not raise and the chain it returns is pending and well formed. *)
Lemma apply_pending (s : step St) (c : Core.Safe) (w : world St) :
  is_pending (Core.result c) = true ->
  exists c' w',
    apply s c w = (Normal c', w')
    /\ well_formed (Core.result c') = true
    /\ is_pending (Core.result c') = true.
Proof.
  intros Hp.
  destruct s; simpl;
    unfold Core.map, Core.flatMap, Core.effect, Core.ifOk, Core.watch, Core.catch,
      Core.ifFail;
    match goal with
    | |- context [Core.next c ?cb w] =>
        destruct (@next_returns _ _ c cb w) as (c' & w' & H & Hwf & Hp');
          [ intros r x w1 Hc; rewrite Hc in Hp; discriminate
          | exists c', w'; auto ]
    end.
Qed.

(** Starting from a pending chain, every chain that a sequence of
    operations produces is pending, one chain per operation, whatever the
    callbacks do. *)
Lemma pending_from_pending (steps : list (step St)) (c : Core.Safe) (w : world St) :
  is_pending (Core.result c) = true ->
  exists cs w',
    run steps c w = (Normal cs, w')
    /\ length cs = length steps
    /\ Forall (answers_later (St := St)) cs.
Proof.
  revert c w. induction steps as [ | s rest IH]; intros c w Hp; simpl.
  - exists [], w. repeat split. constructor.
  - destruct (apply_pending s c w Hp) as (c1 & w1 & Hs & _ & Hp1).
    destruct (IH c1 w1 Hp1) as (cs & w2 & Hr & Hlen & Hall).
    exists (c1 :: cs), w2. unfold bind. rewrite Hs, Hr.
    repeat split.
    + simpl. now rewrite Hlen.
    + constructor; [apply pending_answers_later, Hp1 | exact Hall].
Qed.

(** The chains of a sequence are those of its first part followed by
    those the rest produces from the last chain reached. *)
Lemma run_app (before after : list (step St)) (c : Core.Safe) (w : world St) :
  run (before ++ after) c w
  = (let* cs := run before c in
     let* cs' := run after (List.last cs c) in
     ret (cs ++ cs')%list) w.
Proof.
  revert c w. induction before as [ | s rest IH]; intros c w; simpl.
  - unfold bind, ret. simpl. destruct (run after c w) as [[cs | e] w']; reflexivity.
  - unfold bind, ret in *. destruct (apply s c w) as [[c1 | e] w1]; [ | reflexivity].
    rewrite IH.
    destruct (run rest c1 w1) as [[cs | e] w2]; [ | reflexivity].
    rewrite last_cons.
    destruct (run after (List.last cs c1) w2) as [[cs' | e] w3]; reflexivity.
Qed.

(** C9.  Take any sequence of operations on any chain and cut it
    anywhere after its first operation: if the chain produced by the last
    operation before the cut is pending, then the operations after the cut
    all run, none of them raises, and every chain they produce is pending
    and answers [isOk] and [unwrap] with a promise. *)
Theorem pending_monotone (before after : list (step St)) (c : Core.Safe)
    (w w1 : world St) (cs : list Core.Safe) :
  run before c w = (Normal cs, w1) ->
  is_pending (Core.result (List.last cs c)) = true ->
  exists cs' w',
    run (before ++ after) c w = (Normal (cs ++ cs')%list, w')
    /\ length cs' = length after
    /\ Forall (answers_later (St := St)) cs'.
Proof.
  intros Hrun Hp.
  destruct (pending_from_pending after (List.last cs c) w1 Hp)
    as (cs' & w' & Hafter & Hlen & Hall).
  exists cs', w'. rewrite run_app. unfold bind, ret.
  rewrite Hrun, Hafter. auto.
Qed.

End Monotonicity.

Section MonotonicityExamples.
#[local] Existing Instance example_host.

Lemma pending_monotone_witness :
  exists cs' w',
    run ([Map (fun x => ret (VPromise (Fulfilled x)))]
         ++ [Map (plus 1); Catch (fun _ => ret (VNum 0)); Watch (fun _ => ret VUndefined)])
      (Core.createChain (Now (ok (VNum 2)))) w0
    = (Normal ([Core.createChain (Later (Fulfilled (ok (VNum 2))))] ++ cs')%list, w')
    /\ length cs' = 3
    /\ Forall (answers_later (St := list (string * val))) cs'.
Proof.
  exact (@pending_monotone _ _
           [Map (fun x => ret (VPromise (Fulfilled x)))]
           [Map (plus 1); Catch (fun _ => ret (VNum 0)); Watch (fun _ => ret VUndefined)]
           (Core.createChain (Now (ok (VNum 2)))) w0 w0
           [Core.createChain (Later (Fulfilled (ok (VNum 2))))]
           eq_refl eq_refl).
Defined.

(** Once pending, a chain is not made immediate again by an operation
    whose callback returns at once. *)
Example pending_after_plain_steps :
  (let* c0 := Core.safeValue (VNum 2) in
   let* c1 := Core.map c0 (fun x => ret (VPromise (Fulfilled x))) in
   let* cs := run [Map (plus 1); Effect (fun _ => ret VUndefined)] c1 in
   ret (List.map Core.result cs)) w0
  = (Normal [Later (Fulfilled (ok (VNum 3))); Later (Fulfilled (ok (VNum 3)))], w0).
Proof. reflexivity. Qed.

End MonotonicityExamples.

(** ** The snapshot given to a consumer *)

Section SnapshotLaw.
Context {St : Type}.

(** The callback runs to completion on every heap that holds [prev]: the
    copy is made at a fresh address and receives the consumer's writes. *)
Lemma watch_callback_runs (c : Snapshot.consumer St) (prev : Snapshot.loc)
    (heap : gmap Snapshot.loc SafeResult) (r : SafeResult) (w : world St) :
  heap !! prev = Some r ->
  Snapshot.watch_callback c prev heap w
  = Some (if Result.isOk r then Normal (value r) else Throw (error r),
          <[fresh (dom heap) := Snapshot.assign c r]> (<[fresh (dom heap) := r]> heap),
          snd (Snapshot.body c r w)).
Proof.
  intros Hprev.
  assert (Hne : fresh (dom heap) <> prev).
  { intros E. pose proof (is_fresh (dom heap)) as F. rewrite E in F.
    apply not_elem_of_dom in F. congruence. }
  unfold Snapshot.watch_callback, Snapshot.spread, Snapshot.call.
  rewrite Hprev, lookup_insert_eq.
  rewrite !lookup_insert_ne by exact Hne. rewrite Hprev.
  js_unfold. destruct (Snapshot.body c r w) as [[x | e] w1]; reflexivity.
Qed.

(** C10.  The object a [watch] consumer receives is a copy at a new
    address.  Whatever the consumer assigns to the fields of that object
    ends up in the copy; the result object of the chain keeps its fields,
    every other object is untouched, and the callback goes on to return
    the value, or raise the error, that the chain's result held before
    the consumer ran. *)
Theorem watch_snapshot_is_a_copy (c : Snapshot.consumer St) (prev : Snapshot.loc)
    (heap : gmap Snapshot.loc SafeResult) (r : SafeResult) (w : world St) :
  heap !! prev = Some r ->
  exists copy heap',
    Snapshot.watch_callback c prev heap w
    = Some (if Result.isOk r then Normal (value r) else Throw (error r),
            heap', snd (Snapshot.body c r w))
    /\ copy <> prev
    /\ heap !! copy = None
    /\ heap' !! copy = Some (Snapshot.assign c r)
    /\ heap' !! prev = Some r
    /\ forall l, l <> copy -> heap' !! l = heap !! l.
Proof.
  intros Hprev.
  set (copy := fresh (dom heap)).
  assert (Hfresh : heap !! copy = None).
  { apply not_elem_of_dom. apply is_fresh. }
  assert (Hne : copy <> prev).
  { intros E. rewrite E in Hfresh. congruence. }
  exists copy, (<[copy := Snapshot.assign c r]> (<[copy := r]> heap)).
  repeat split; try assumption.
  - exact (watch_callback_runs c prev heap w Hprev).
  - apply lookup_insert_eq.
  - rewrite !lookup_insert_ne by exact Hne. exact Hprev.
  - intros l Hl. rewrite !lookup_insert_ne by congruence. reflexivity.
Qed.

(** The object-level callback and the callback of [Core.watch] agree: the
    chain [watch] returns is the fold of the completion computed over the
    heap. *)
Lemma watch_callback_agrees {RT : Runtime St} (c : Snapshot.consumer St)
    (prev : Snapshot.loc) (heap : gmap Snapshot.loc SafeResult)
    (r : SafeResult) (w : world St) :
  heap !! prev = Some r ->
  exists o heap' w1,
    Snapshot.watch_callback c prev heap w = Some (o, heap', w1)
    /\ Core.watch (Core.createChain (Now r)) (Snapshot.body c) w
       = (let* s := Result.update (Now r) (fun _ => fun _ => (o, w1)) in
          Core.create s) w.
Proof.
  intros Hprev.
  eexists _, _, _. split; [exact (watch_callback_runs c prev heap w Hprev) | ].
  unfold Core.watch, Core.next, Result.update; simpl; js_unfold.
  rewrite (eta_result r).
  destruct (Snapshot.body c r w) as [[x | e] w1]; simpl;
    destruct (Result.isOk r); reflexivity.
Qed.

End SnapshotLaw.

Section SnapshotExamples.

(** A consumer that overwrites every field of what it receives. *)
Lemma watch_snapshot_is_a_copy_witness :
  exists copy heap',
    Snapshot.watch_callback
      {| Snapshot.assign := fun _ => {| isOk := false; error := VStr "gone"; value := VNull |};
         Snapshot.body := fun _ => ret VUndefined |}
      7 {[ 7 := ok (VNum 42) ]} w0
    = Some (Normal (VNum 42), heap', w0)
    /\ copy <> 7
    /\ ({[ 7 := ok (VNum 42) ]} : gmap Snapshot.loc SafeResult) !! copy = None
    /\ heap' !! copy = Some {| isOk := false; error := VStr "gone"; value := VNull |}
    /\ heap' !! 7 = Some (ok (VNum 42))
    /\ forall l, l <> copy -> heap' !! l = ({[ 7 := ok (VNum 42) ]} : gmap _ _) !! l.
Proof.
  exact (@watch_snapshot_is_a_copy _
           {| Snapshot.assign := fun _ => {| isOk := false; error := VStr "gone"; value := VNull |};
              Snapshot.body := fun _ => ret VUndefined |}
           7 {[ 7 := ok (VNum 42) ]} (ok (VNum 42)) w0 eq_refl).
Defined.

End SnapshotExamples.

(** * Further laws of the engine *)

Section Thunks.
Context {St : Type} {RT : Runtime St}.


(** A regular step on a well-formed chain returns a well-formed chain. *)
Lemma apply_regular (s : step St) (c : Core.Safe) (w : world St) :
  well_formed (Core.result c) = true ->
  regular_step s ->
  exists c' w',
    apply s c w = (Normal c', w')
    /\ well_formed (Core.result c') = true
    /\ (is_pending (Core.result c) = true -> is_pending (Core.result c') = true).
Proof.
  intros Hwf Hreg.
  destruct s; simpl in *;
    unfold Core.map, Core.flatMap, Core.effect, Core.ifOk, Core.watch, Core.catch,
      Core.ifFail;
    apply next_returns; intros r x w1 Hc; rewrite Hc in Hwf; simpl in Hwf;
    destruct (Result.isOk r) eqn:Hok;
    try (destruct (shaped_ok r Hwf Hok) as [_ Hp]).
  - (* map *)
    intros E. specialize (Hreg (value r) w). now rewrite E in Hreg.
  - discriminate.
  - (* flatMap *)
    unfold bind. specialize (Hreg (value r) w).
    destruct (transform (value r) w) as [[inner | e] w2]; [ | discriminate].
    rewrite unwrap_reads.
    destruct inner as [[r' | p]]; simpl in *.
    + destruct (Result.isOk r') eqn:Hok'; [ | discriminate].
      intros [= <- _]. apply regular_plain. apply shaped_ok; assumption.
    + intros [= <- _]. reflexivity.
  - discriminate.
  - (* effect *)
    pose proof (effect_callback r effectFn w Hok Hp) as Hcb. rewrite Hok in Hcb.
    simpl in *. rewrite Hcb. specialize (Hreg (value r) w).
    destruct (effectFn (value r) w) as [[y | e] w2]; [ | discriminate].
    destruct y; try discriminate Hreg; simpl; intros [= <- _];
      try reflexivity; apply regular_plain, Hp.
  - discriminate.
  - (* ifOk *)
    pose proof (effect_callback r effectFn w Hok Hp) as Hcb. rewrite Hok in Hcb.
    simpl in *. rewrite Hcb. specialize (Hreg (value r) w).
    destruct (effectFn (value r) w) as [[y | e] w2]; [ | discriminate].
    destruct y; try discriminate Hreg; simpl; intros [= <- _];
      try reflexivity; apply regular_plain, Hp.
  - discriminate.
  - (* watch *)
    js_unfold.
    destruct (consumer {| isOk := true; error := error r; value := value r |} w)
      as [[y | e] w2]; intros [= <- _]; apply regular_plain, Hp.
  - js_unfold.
    destruct (consumer {| isOk := false; error := error r; value := value r |} w)
      as [[y | e] w2]; discriminate.
  - (* catch *)
    simpl. intros [= <- _]. apply regular_plain, Hp.
  - simpl. intros E. specialize (Hreg (error r) w). now rewrite E in Hreg.
  - (* ifFail *)
    simpl. intros [= <- _]. apply regular_plain, Hp.
  - simpl. intros E. specialize (Hreg (error r) w). now rewrite E in Hreg.
Qed.

(** X2.  Starting from a well-formed chain, a sequence of operations whose
    callbacks are regular runs to its end: no operation raises, and each
    chain produced is well formed: its result has the shape [ok] or [fail]
    builds, a success does not hold a promise-like value, and the promise
    of a pending chain does not reject. *)
Theorem operations_keep_well_formed (steps : list (step St)) (c : Core.Safe)
    (w : world St) :
  well_formed (Core.result c) = true ->
  Forall regular_step steps ->
  exists cs w',
    run steps c w = (Normal cs, w')
    /\ length cs = length steps
    /\ Forall (fun c' => well_formed (Core.result c') = true) cs.
Proof.
  intros Hwf Hsteps. revert c w Hwf.
  induction Hsteps as [ | s rest Hs Hrest IH]; intros c w Hwf; simpl.
  - exists [], w. repeat split. constructor.
  - destruct (apply_regular s c w Hwf Hs) as (c1 & w1 & Hc & Hwf1 & _).
    destruct (IH c1 w1 Hwf1) as (cs & w2 & Hr & Hlen & Hall).
    exists (c1 :: cs), w2. unfold bind. rewrite Hc, Hr.
    repeat split.
    + simpl. now rewrite Hlen.
    + constructor; assumption.
Qed.

(** X3.  [isOk] and [unwrap] read the same result and change nothing.
    On a failure [isOk] is [false] and [unwrap] raises the error; on a
    success [isOk] is [true] and [unwrap] returns the value.  For a
    pending chain both answer with a promise: that of [isOk] resolves to
    the boolean, that of [unwrap] rejects with the error or is resolved
    with the value, so it follows the value when that is promise-like. *)
Theorem isOk_agrees_with_unwrap (c : Core.Safe) (r : SafeResult) (w : world St) :
  eventual (Core.result c) = Some r ->
  Core.isOk c w
  = (Normal (if is_pending (Core.result c)
             then VPromise (Fulfilled (VBool (Result.isOk r)))
             else VBool (Result.isOk r)), w)
  /\ Core.unwrap c w
     = (if is_pending (Core.result c) then
          Normal (VPromise (if Result.isOk r then settle (value r)
                            else Rejected (error r)))
        else if Result.isOk r then Normal (value r) else Throw (error r), w).
Proof.
  intros Hr. rewrite isOk_reads, unwrap_reads. unfold observe.
  destruct c as [[r0 | [r0 | e | ]]]; simpl in *; try discriminate;
    injection Hr as ->; split; reflexivity.
Qed.

End Thunks.

Section ThunkExamples.
#[local] Existing Instance example_host.

Lemma operations_keep_well_formed_witness :
  exists cs w',
    run [Map (plus 1); Catch (fun _ => ret (VNum 0)); Effect (fun _ => ret (VPromise Unsettled))]
      (Core.createChain (Now (ok (VNum 2)))) w0
    = (Normal cs, w')
    /\ length cs = 3
    /\ Forall (fun c' => well_formed (Core.result c') = true) cs.
Proof.
  refine (@operations_keep_well_formed _ _
            [Map (plus 1); Catch (fun _ => ret (VNum 0));
             Effect (fun _ => ret (VPromise Unsettled))]
            (Core.createChain (Now (ok (VNum 2)))) w0 eq_refl _).
  repeat constructor; intros x w; destruct x; reflexivity.
Defined.

(** A thunk that returns [{ then() {} }]: the first [map] raises, and
    [safeExec] answers with an immediate failure holding the TypeError. *)
Example safeExec_of_a_thenable :
  (let* c := Core.safeExec (logged "fn" (fun _ => ret inert) VUndefined) in
   ret (Core.result c)) w0
  = (Normal (Now {| isOk := false; error := VError 1 no_result; value := VUndefined |}),
     {| next_id := 2; store := [("fn", VUndefined)] |}).
Proof. reflexivity. Qed.

Lemma isOk_agrees_with_unwrap_witness :
  Core.isOk
    (Core.createChain
       (Later (Fulfilled {| isOk := false; error := VError 0 "e"; value := VUndefined |}))) w0
  = (Normal (VPromise (Fulfilled (VBool false))), w0)
  /\ Core.unwrap
       (Core.createChain
          (Later (Fulfilled {| isOk := false; error := VError 0 "e"; value := VUndefined |}))) w0
     = (Normal (VPromise (Rejected (VError 0 "e"))), w0).
Proof.
  exact (@isOk_agrees_with_unwrap _
           (Core.createChain
              (Later (Fulfilled {| isOk := false; error := VError 0 "e"; value := VUndefined |})))
           {| isOk := false; error := VError 0 "e"; value := VUndefined |}
           w0 eq_refl).
Defined.

(** A pending success that holds a promise which rejects: [isOk] resolves
    to [true] and [unwrap] rejects. *)
Example isOk_true_and_unwrap_rejects :
  (let* c0 := Core.safeValue (VNum 1) in
   let* c1 := Core.map c0 (fun _ => ret (handing (VPromise (Rejected (VStr "late"))))) in
   let* b := Core.isOk c1 in
   let* x := Core.unwrap c1 in
   ret (b, x)) w0
  = (Normal (VPromise (Fulfilled (VBool true)), VPromise (Rejected (VStr "late"))), w0).
Proof. reflexivity. Qed.

End ThunkExamples.

(** ** [map] and [flatMap] as functor and monad *)

Section Algebra.
Context {St : Type} {RT : Runtime St}.

Lemma well_formed_eventual (c : Core.Safe) (r : SafeResult) :
  well_formed (Core.result c) = true ->
  eventual (Core.result c) = Some r ->
  shaped r = true.
Proof.
  destruct c as [[r0 | [r0 | e | ]]]; simpl; intros H Hr; try discriminate;
    injection Hr as <-; exact H.
Qed.

Lemma unresolved_is_unsettled (c : Core.Safe) :
  well_formed (Core.result c) = true ->
  eventual (Core.result c) = None ->
  c = Core.createChain (Later Unsettled).
Proof.
  destruct c as [[r0 | [r0 | e | ]]]; simpl; intros H Hr; try discriminate.
  reflexivity.
Qed.

(** X4.  Mapping the identity function over a well-formed chain whose
    failure, if any, holds an instance of Error returns a chain with the
    same result and touches nothing. *)
Theorem map_identity (c : Core.Safe) (w : world St) :
  well_formed (Core.result c) = true ->
  (forall r, eventual (Core.result c) = Some r -> structured r = true) ->
  Core.map c (fun x => ret x) w = (Normal c, w).
Proof.
  intros Hwf He. destruct (eventual (Core.result c)) as [r | ] eqn:Hr.
  - pose proof (well_formed_eventual c Hwf Hr) as Hs.
    specialize (He r eq_refl). unfold structured in He.
    destruct (Result.isOk r) eqn:Hok; simpl in He.
    + destruct (shaped_ok r Hs Hok) as [Hv Hp].
      destruct c as [[r0 | [r0 | e | ]]]; simpl in Hr; try discriminate;
        injection Hr as ->;
        unfold Core.map, Core.next, Result.update; simpl; js_unfold;
        rewrite Hok; simpl; rewrite ?Hp, ?(settle_plain _ Hp), ?Hv; reflexivity.
    + exact (map_keeps_error c (fun x => ret x) w Hr Hok Hs He).
  - rewrite (unresolved_is_unsettled c Hwf Hr). reflexivity.
Qed.

(** X5.  Two [map]s in a row are one [map] of the composed function, when
    the first function, whatever its effects, neither raises nor returns a
    promise-like value: both functions are run in the same worlds, and the
    chains and worlds obtained are equal.  This holds on every well-formed
    chain whose failure, if any, holds an instance of Error. *)
Theorem map_composes (c : Core.Safe) (f g : val -> js St val) (w : world St) :
  well_formed (Core.result c) = true ->
  (forall r, eventual (Core.result c) = Some r -> structured r = true) ->
  (forall x w0, exists y w1, f x w0 = (Normal y, w1) /\ isPromiseLike y = false) ->
  (let* c1 := Core.map c f in Core.map c1 g) w
  = Core.map c (fun x => let* y := f x in g y) w.
Proof.
  intros Hwf He Hf. destruct (eventual (Core.result c)) as [r | ] eqn:Hr.
  - pose proof (well_formed_eventual c Hwf Hr) as Hs.
    specialize (He r eq_refl). unfold structured in He.
    destruct (Result.isOk r) eqn:Hok; simpl in He.
    + destruct (Hf (value r) w) as (y & w1 & Hy & Hp).
      destruct c as [[r0 | [r0 | e | ]]]; simpl in Hr; try discriminate;
        injection Hr as ->;
        unfold Core.map, Core.next, Result.update; simpl; js_unfold;
        rewrite Hok; simpl; rewrite Hy, ?Hp, ?(settle_plain _ Hp); simpl;
        reflexivity.
    + unfold bind.
      rewrite (map_keeps_error c f w Hr Hok Hs He).
      rewrite (map_keeps_error c g w Hr Hok Hs He).
      now rewrite (map_keeps_error c (fun x => let* y := f x in g y) w Hr Hok Hs He).
  - rewrite (unresolved_is_unsettled c Hwf Hr). reflexivity.
Qed.

(** X6.  [flatMap] on a chain that succeeded returns a chain with the
    result of the chain its transform built, inner failures included, seen
    through a promise when the outer chain was pending; the transform is
    run once, on the value.  This holds when the chain the transform
    returns is well formed and its failure, if any, holds an instance of
    Error. *)
Theorem flatMap_adopts_inner (c inner : Core.Safe) (r : SafeResult)
    (f : val -> js St Core.Safe) (w w1 : world St) :
  eventual (Core.result c) = Some r ->
  Result.isOk r = true ->
  f (value r) w = (Normal inner, w1) ->
  well_formed (Core.result inner) = true ->
  (forall r', eventual (Core.result inner) = Some r' -> structured r' = true) ->
  Core.flatMap c f w
  = (Normal (Core.createChain
               (if is_pending (Core.result c) then Spec.pending (Core.result inner)
                else Core.result inner)), w1).
Proof.
  intros Hr Hok Hf Hwf He.
  destruct (eventual (Core.result inner)) as [r' | ] eqn:Hr'.
  - pose proof (well_formed_eventual inner Hwf Hr') as Hs.
    specialize (He r' eq_refl). unfold structured in He.
    destruct (Result.isOk r') eqn:Hok'; simpl in He.
    + destruct (shaped_ok r' Hs Hok') as [Hv Hp].
      destruct c as [[r0 | [r0 | e | ]]]; simpl in Hr; try discriminate;
        injection Hr as ->;
        destruct inner as [[r1 | [r1 | e | ]]]; simpl in Hr'; try discriminate;
        injection Hr' as ->;
        unfold Core.flatMap, Core.unwrap, Core.next, Result.update; simpl; js_unfold;
        rewrite Hok, Hf; simpl; rewrite ?Hok'; simpl;
        rewrite ?Hp, ?(settle_plain _ Hp); simpl;
        rewrite ?(settle_plain _ Hp), ?Hv; reflexivity.
    + pose proof (shaped_fail r' Hs Hok') as Hv.
      destruct c as [[r0 | [r0 | e | ]]]; simpl in Hr; try discriminate;
        injection Hr as ->;
        destruct inner as [[r1 | [r1 | e | ]]]; simpl in Hr'; try discriminate;
        injection Hr' as ->;
        unfold Core.flatMap, Core.unwrap, Core.next, Result.update; simpl; js_unfold;
        rewrite Hok, Hf; simpl; rewrite ?Hok'; simpl;
        rewrite ?(fail_Error _ _ He); simpl; rewrite ?Hv; reflexivity.
  - pose proof (unresolved_is_unsettled inner Hwf Hr') as Hi. subst inner.
    destruct c as [[r0 | [r0 | e | ]]]; simpl in Hr; try discriminate;
      injection Hr as ->;
      unfold Core.flatMap, Core.unwrap, Core.next, Result.update; simpl; js_unfold;
      rewrite Hok, Hf; reflexivity.
Qed.

(** X7.  [flatMap] with the constructor [safeValue] as transform returns
    a chain with the same result, on every well-formed chain whose failure,
    if any, holds an instance of Error. *)
Theorem flatMap_safeValue (c : Core.Safe) (w : world St) :
  well_formed (Core.result c) = true ->
  (forall r, eventual (Core.result c) = Some r -> structured r = true) ->
  Core.flatMap c Core.safeValue w = (Normal c, w).
Proof.
  intros Hwf He. destruct (eventual (Core.result c)) as [r | ] eqn:Hr.
  - pose proof (well_formed_eventual c Hwf Hr) as Hs.
    specialize (He r eq_refl). unfold structured in He.
    destruct (Result.isOk r) eqn:Hok; simpl in He.
    + destruct (shaped_ok r Hs Hok) as [Hv Hp].
      destruct c as [[r0 | [r0 | e | ]]]; simpl in Hr; try discriminate;
        injection Hr as ->;
        unfold Core.flatMap, Core.safeValue, Core.map, Core.unwrap, Core.next,
          Result.update; simpl; js_unfold;
        rewrite Hok; simpl; rewrite ?Hp; simpl;
        rewrite ?Hp, ?(settle_plain _ Hp); simpl; rewrite ?Hv; reflexivity.
    + destruct c as [[r0 | [r0 | e | ]]]; simpl in Hr; try discriminate;
        injection Hr as ->;
        unfold Core.flatMap, Core.next, Result.update; simpl; js_unfold;
        rewrite Hok; simpl; rewrite (fail_Error _ _ He); simpl;
        rewrite (shaped_fail r Hs Hok); reflexivity.
  - rewrite (unresolved_is_unsettled c Hwf Hr). reflexivity.
Qed.

End Algebra.

Section AlgebraExamples.
#[local] Existing Instance example_host.

Lemma map_identity_witness :
  Core.map
    (Core.createChain (Later (Fulfilled (ok (VNum 7)))))
    (fun x => ret x) w0
  = (Normal (Core.createChain (Later (Fulfilled (ok (VNum 7))))), w0).
Proof.
  refine (@map_identity _ _ (Core.createChain (Later (Fulfilled (ok (VNum 7)))))
            w0 eq_refl _).
  intros r [= <-]. reflexivity.
Defined.

Lemma map_composes_witness :
  (let* c1 := Core.map (Core.createChain (Now (ok (VNum 5)))) (logged "f" (times 2)) in
   Core.map c1 (logged "g" (plus 3))) w0
  = Core.map (Core.createChain (Now (ok (VNum 5))))
      (fun x => let* y := logged "f" (times 2) x in logged "g" (plus 3) y) w0.
Proof.
  refine (@map_composes _ _ (Core.createChain (Now (ok (VNum 5))))
            (logged "f" (times 2)) (logged "g" (plus 3)) w0 eq_refl _ _).
  - intros r [= <-]. reflexivity.
  - intros x w. destruct x; eexists _, _; split; reflexivity.
Defined.

Lemma flatMap_adopts_inner_witness :
  Core.flatMap (Core.createChain (Now (ok (VNum 2))))
    (fun x => Core.safeExec (throw (VError 0 "Inner error"))) w0
  = (Normal
       (Core.createChain
          (Now {| isOk := false; error := VError 0 "Inner error"; value := VUndefined |})),
     w0).
Proof.
  refine (@flatMap_adopts_inner _ _ (Core.createChain (Now (ok (VNum 2))))
            (Core.createChain
               (Now {| isOk := false; error := VError 0 "Inner error"; value := VUndefined |}))
            (ok (VNum 2))
            (fun x => Core.safeExec (throw (VError 0 "Inner error"))) w0 w0
            eq_refl eq_refl eq_refl eq_refl _).
  intros r [= <-]. reflexivity.
Defined.

Lemma flatMap_safeValue_witness :
  Core.flatMap
    (Core.createChain (Now {| isOk := false; error := VError 0 "e"; value := VUndefined |}))
    Core.safeValue w0
  = (Normal
       (Core.createChain (Now {| isOk := false; error := VError 0 "e"; value := VUndefined |})),
     w0).
Proof.
  refine (@flatMap_safeValue _ _
            (Core.createChain
               (Now {| isOk := false; error := VError 0 "e"; value := VUndefined |}))
            w0 eq_refl _).
  intros r [= <-]. reflexivity.
Defined.

End AlgebraExamples.

(** ** The entry point and the observers *)

Section Entry.
Context {St : Type} {RT : Runtime St}.

(** X8.  For an argument that is not a function, [safe] is [safeValue]:
    the shortcut taken for [undefined] (and for no argument) returns the
    chain [safeValue(undefined)] would build. *)
Theorem safe_of_value (v : val) (w : world St) :
  Index.safe (Index.Val v) w = Core.safeValue v w.
Proof. destruct v; reflexivity. Qed.

(** X9.  Passed to [watch], [watchOk(k)] runs [k] once on the value when
    the chain succeeded and not at all when it failed, and [watchError(k)]
    runs [k] once on the error when the chain failed and not at all when it
    succeeded; either way [watch] returns a chain with the same result,
    even when [k] raises.  This holds on every well-formed chain whose
    failure, if any, holds an instance of Error. *)
Theorem watchOk_watchError (c : Core.Safe) (r : SafeResult)
    (k : val -> js St val) (w : world St) :
  well_formed (Core.result c) = true ->
  eventual (Core.result c) = Some r ->
  structured r = true ->
  Core.watch c (Observe.watchOk k) w
  = (Normal c, if Result.isOk r then snd (k (value r) w) else w)
  /\ Core.watch c (Observe.watchError k) w
     = (Normal c, if Result.isOk r then w else snd (k (error r) w)).
Proof.
  intros Hwf Hr He. pose proof (well_formed_eventual c Hwf Hr) as Hs.
  rewrite !(watch_keeps_chain c _ w Hr Hs He).
  unfold Observe.watchOk, Observe.watchError, bind, ret.
  destruct (Result.isOk r); simpl.
  - destruct (k (value r) w) as [[x | e] w1]; split; reflexivity.
  - destruct (k (error r) w) as [[x | e] w1]; split; reflexivity.
Qed.

End Entry.

Section EntryExamples.
#[local] Existing Instance example_host.

Lemma watchOk_watchError_witness :
  Core.watch
    (Core.createChain (Now {| isOk := false; error := VError 0 "e"; value := VUndefined |}))
    (Observe.watchOk (logged "k" (fun x => ret x))) w0
  = (Normal
       (Core.createChain (Now {| isOk := false; error := VError 0 "e"; value := VUndefined |})),
     w0)
  /\ Core.watch
       (Core.createChain (Now {| isOk := false; error := VError 0 "e"; value := VUndefined |}))
       (Observe.watchError (logged "k" (fun x => ret x))) w0
     = (Normal
          (Core.createChain (Now {| isOk := false; error := VError 0 "e"; value := VUndefined |})),
        {| next_id := 1; store := [("k", VError 0 "e")] |}).
Proof.
  exact (@watchOk_watchError _ _
           (Core.createChain
              (Now {| isOk := false; error := VError 0 "e"; value := VUndefined |}))
           {| isOk := false; error := VError 0 "e"; value := VUndefined |}
           (logged "k" (fun x => ret x)) w0 eq_refl eq_refl eq_refl).
Defined.

End EntryExamples.

(** ** Validators in a chain *)

Section Validators.
Context {St : Type} {RT : Runtime St}.





End Validators.

Section ValidatorExamples.
#[local] Existing Instance example_host.




End ValidatorExamples.

(** ** The composition builder *)

Section Pipes.
Context {St : Type} {RT : Runtime St}.

Lemma reduce_app (before after : list (val -> js St val)) (c : Core.Safe)
    (w : world St) :
  Pipe.reduce (before ++ after) c w
  = (let* c1 := Pipe.reduce before c in Pipe.reduce after c1) w.
Proof.
  revert c w. induction before as [ | t rest IH]; intros c w; simpl.
  - reflexivity.
  - unfold bind in *. destruct (Core.map c t w) as [[c1 | e] w1]; [ | reflexivity].
    apply IH.
Qed.

(** On a pending chain the transformers are folded in, whatever they do. *)
Lemma reduce_pending (transformers : list (val -> js St val)) (c : Core.Safe)
    (w : world St) :
  well_formed (Core.result c) = true ->
  is_pending (Core.result c) = true ->
  exists c' w',
    Pipe.reduce transformers c w = (Normal c', w')
    /\ well_formed (Core.result c') = true
    /\ is_pending (Core.result c') = true.
Proof.
  revert c w. induction transformers as [ | t rest IH]; intros c w Hwf Hp; simpl.
  - exists c, w. auto.
  - destruct (@next_returns _ _ c
                (fun prev => if Result.isOk prev then t (value prev)
                             else throw (error prev)) w)
      as (c1 & w1 & H1 & Hwf1 & Hp1).
    { intros r x w1 Hc. rewrite Hc in Hp. discriminate. }
    destruct (IH c1 w1 Hwf1 (Hp1 Hp)) as (c2 & w2 & H2 & Hwf2 & Hp2).
    exists c2, w2. unfold bind, Core.map. rewrite H1. auto.
Qed.

(** A pipe that returns, returns a chain whose result has one of the two
    shapes. *)
Lemma reduce_built (transformers : list (val -> js St val)) (c c' : Core.Safe)
    (w w' : world St) :
  built (Core.result c) = true ->
  Pipe.reduce transformers c w = (Normal c', w') ->
  built (Core.result c') = true.
Proof.
  revert c w. induction transformers as [ | t rest IH]; intros c w Hb; simpl.
  - intros [= <- _]. exact Hb.
  - unfold bind. destruct (Core.map c t w) as [[c1 | e] w1] eqn:Hmap; [ | discriminate].
    apply IH. exact (next_built _ _ _ Hmap).
Qed.

(** Once the chain failed with an Error, no transformer is run any more. *)
Lemma reduce_failed (transformers : list (val -> js St val)) (c : Core.Safe)
    (r : SafeResult) (w : world St) :
  eventual (Core.result c) = Some r ->
  Result.isOk r = false ->
  shaped r = true ->
  instanceof_Error (error r) = true ->
  Pipe.reduce transformers c w = (Normal c, w).
Proof.
  intros Hr Hok Hs He. induction transformers as [ | t rest IH]; simpl.
  - reflexivity.
  - unfold bind. rewrite (map_keeps_error c t w Hr Hok Hs He). exact IH.
Qed.

Lemma safePipe_built (transformers : list (val -> js St val)) (input : val)
    (c : Core.Safe) (w w' : world St) :
  Pipe.safePipe transformers input w = (Normal c, w') ->
  built (Core.result c) = true.
Proof.
  unfold Pipe.safePipe, bind.
  destruct (safeValue_returns input w) as (c0 & w0' & -> & Hb).
  apply reduce_built, Hb.
Qed.

(** X13.  A pipe applied to a promise does not raise, whatever its
    transformers do and however many they are: it returns a pending,
    well-formed chain. *)
Theorem safePipe_returns (transformers : list (val -> js St val))
    (p : promise val val) (w : world St) :
  exists c w',
    Pipe.safePipe transformers (VPromise p) w = (Normal c, w')
    /\ well_formed (Core.result c) = true
    /\ is_pending (Core.result c) = true.
Proof.
  unfold Pipe.safePipe, bind.
  destruct (safeValue_of_promise p w) as (q & w1 & -> & Hwf).
  exact (reduce_pending transformers (Core.createChain (Later q)) w1 Hwf eq_refl).
Qed.


(** X15.  Once a pipe has failed with an Error, transformers added after
    it are never run: the longer pipe returns the same chain and leaves the
    same world. *)
Theorem safePipe_short_circuits (before after : list (val -> js St val))
    (input : val) (c : Core.Safe) (r : SafeResult) (w w1 : world St) :
  Pipe.safePipe before input w = (Normal c, w1) ->
  eventual (Core.result c) = Some r ->
  Result.isOk r = false ->
  instanceof_Error (error r) = true ->
  Pipe.safePipe (before ++ after) input w = (Normal c, w1).
Proof.
  intros Hpipe Hr Hok He.
  assert (Hs : shaped r = true).
  { pose proof (safePipe_built _ _ _ Hpipe) as Hb.
    destruct c as [[r0 | [r0 | e | ]]]; simpl in *; try discriminate;
      injection Hr as ->; unfold shaped, one_sided in *; now rewrite Hok in *. }
  unfold Pipe.safePipe, bind in *.
  destruct (Core.safeValue input w) as [[c0 | e] w0']; [ | discriminate].
  rewrite reduce_app. unfold bind. rewrite Hpipe.
  exact (reduce_failed after c w1 Hr Hok Hs He).
Qed.

End Pipes.

Section PipeExamples.
#[local] Existing Instance example_host.


Lemma safePipe_short_circuits_witness :
  Pipe.safePipe
    ([fun _ => throw (VError 0 "first")] ++ [logged "second" (fun x => ret x)])
    (VNum 1) w0
  = (Normal
       (Core.createChain
          (Now {| isOk := false; error := VError 0 "first"; value := VUndefined |})),
     w0).
Proof.
  exact (@safePipe_short_circuits _ _
           [fun _ => throw (VError 0 "first")] [logged "second" (fun x => ret x)]
           (VNum 1)
           (Core.createChain
              (Now {| isOk := false; error := VError 0 "first"; value := VUndefined |}))
           {| isOk := false; error := VError 0 "first"; value := VUndefined |}
           w0 w0 eq_refl eq_refl eq_refl eq_refl).
Defined.

End PipeExamples.

(** ** Retrying *)

Section Retries.
Context {St : Type} {CK : Retry.Clock St}.


(** X16.  With [maxTries] zero or negative the function is never called:
    the promise [retry] answers with rejects with [undefined], the initial
    content of [lastError], and nothing else happens. *)
Theorem retry_without_attempts (fn : val -> js St val) (o : option Retry.options)
    (arg : val) (w : world St) :
  (Retry.setting o Retry.maxTries 3%Z <= 0)%Z ->
  Retry.retry fn o arg w = (Normal (VPromise (Rejected VUndefined)), w).
Proof.
  intros H. unfold Retry.retry.
  replace (Z.to_nat (Retry.setting o Retry.maxTries 3%Z)) with 0%nat by lia.
  reflexivity.
Qed.

(** X17.  When the first attempt does not fail, there is no second one and
    no waiting: the promise [retry] answers with settles as the value the
    function returned does, fulfilled with what it resolves to, or never
    when it never settles. *)
Theorem retry_first_attempt (fn : val -> js St val) (o : option Retry.options)
    (arg x : val) (w w1 : world St) :
  (0 < Retry.setting o Retry.maxTries 3%Z)%Z ->
  fn arg w = (Normal x, w1) ->
  (forall e, settle x <> Rejected e) ->
  Retry.retry fn o arg w = (Normal (VPromise (settle x)), w1).
Proof.
  intros Hn Hfn Hx. unfold Retry.retry.
  destruct (Z.to_nat (Retry.setting o Retry.maxTries 3%Z)) as [ | m] eqn:Hm; [lia | ].
  simpl. rewrite Hfn.
  destruct (settle x) as [v | e | ]; try reflexivity.
  exfalso. exact (Hx e eq_refl).
Qed.


(** X19.  With [backoff] set, each wait is twice the one before, starting
    from [delay]; without it every wait is [delay].  The delay is one
    second when none is given. *)
Theorem waitTime_schedule (o : option Retry.options) (i : Z) :
  (0 <= i)%Z ->
  Retry.waitTime o 0 = Retry.setting o Retry.delay 1000%Z
  /\ Retry.waitTime o (i + 1)
     = if Retry.setting o Retry.backoff false then (2 * Retry.waitTime o i)%Z
       else Retry.waitTime o i.
Proof.
  intros Hi. unfold Retry.waitTime.
  destruct (Retry.setting o Retry.backoff false); split; try reflexivity.
  - change (2 ^ 0)%Z with 1%Z. lia.
  - rewrite Z.pow_add_r by lia. change (2 ^ 1)%Z with 2%Z. lia.
Qed.

End Retries.

Section RetryExamples.
#[local] Existing Instance example_clock.

Lemma retry_without_attempts_witness :
  Retry.retry (logged "fn" (fun x => ret x))
    (Some {| Retry.maxTries := Some 0%Z; Retry.delay := None; Retry.backoff := None |})
    (VNum 1) w0
  = (Normal (VPromise (Rejected VUndefined)), w0).
Proof.
  apply retry_without_attempts. vm_compute. discriminate.
Defined.

Lemma retry_first_attempt_witness :
  Retry.retry (logged "fn" (fun x => ret (VPromise (Fulfilled x)))) None (VNum 1) w0
  = (Normal (VPromise (Fulfilled (VNum 1))),
     {| next_id := 1; store := [("fn", VNum 1)] |}).
Proof.
  refine (@retry_first_attempt _ _
            (logged "fn" (fun x => ret (VPromise (Fulfilled x)))) None (VNum 1)
            (VPromise (Fulfilled (VNum 1))) w0
            {| next_id := 1; store := [("fn", VNum 1)] |} _ eq_refl _).
  - reflexivity.
  - intros e. discriminate.
Defined.


Lemma waitTime_schedule_witness :
  Retry.waitTime
    (Some {| Retry.maxTries := None; Retry.delay := Some 100%Z; Retry.backoff := Some true |})
    0 = 100%Z
  /\ Retry.waitTime
       (Some {| Retry.maxTries := None; Retry.delay := Some 100%Z; Retry.backoff := Some true |})
       (1 + 1) = 400%Z.
Proof.
  refine (@waitTime_schedule
            (Some {| Retry.maxTries := None; Retry.delay := Some 100%Z;
                     Retry.backoff := Some true |}) 1%Z _).
  discriminate.
Defined.

(** The default options: three attempts, one second between them. *)
Example retry_defaults :
  Retry.retry (logged "fn" (fun _ => ret (VPromise (Rejected (VStr "no"))))) None
    (VNum 1) w0
  = (Normal (VPromise (Rejected (VStr "no"))),
     {| next_id := 1;
        store := [("fn", VNum 1); ("wait", VNum 1000);
                  ("fn", VNum 1); ("wait", VNum 1000);
                  ("fn", VNum 1)] |}).
Proof. reflexivity. Qed.

End RetryExamples.
